(** * Script segmentation and span wrapping of [assets/js/multilingual.js]

    A shallow embedding of the [Multilingual] class: the character
    classifier [detectScript], the segmenter [segmentText] with its paired
    punctuation stack, and the renderer [wrapSegments], followed by the
    properties established about them. *)

From Stdlib Require Import ZArith List String Ascii Bool Lia.
Import ListNotations.
Open Scope string_scope.
Open Scope list_scope.
Open Scope Z_scope.

(** ** JavaScript strings

    Page text is a JavaScript string: a sequence of UTF-16 code units,
    indexed by [text[i]] and measured by [text.length].  Script names,
    language tags and class names are identifier-like strings and are kept
    as [string]; [lit] gives their code units. *)

Definition jsstring := list Z.

Definition lit (s : string) : jsstring :=
  map (fun a => Z.of_N (N_of_ascii a)) (list_ascii_of_string s).

Fixpoint jsstring_eqb (s t : jsstring) : bool :=
  match s, t with
  | [], [] => true
  | a :: s', b :: t' => (a =? b) && jsstring_eqb s' t'
  | _, _ => false
  end.

Definition isHighSurrogate (c : Z) : bool := (0xD800 <=? c) && (c <=? 0xDBFF).
Definition isLowSurrogate (c : Z) : bool := (0xDC00 <=? c) && (c <=? 0xDFFF).
Definition isSurrogate (c : Z) : bool := (0xD800 <=? c) && (c <=? 0xDFFF).

(** [char.codePointAt(0)]: [undefined] on the empty string, the combined
    code point on a leading surrogate pair, the first code unit otherwise. *)
Definition codePointAt0 (s : jsstring) : option Z :=
  match s with
  | [] => None
  | hi :: rest =>
      match rest with
      | lo :: _ =>
          if isHighSurrogate hi && isLowSurrogate lo
          then Some ((hi - 0xD800) * 0x400 + (lo - 0xDC00) + 0x10000)
          else Some hi
      | [] => Some hi
      end
  end.

(** [for (const glyph of glyphs)]: the string iterator walks code points, so
    a surrogate pair comes out as one two-unit string. *)
Fixpoint stringIterator (s : jsstring) : list jsstring :=
  match s with
  | [] => []
  | hi :: rest =>
      match rest with
      | lo :: rest' =>
          if isHighSurrogate hi && isLowSurrogate lo
          then [hi; lo] :: stringIterator rest'
          else [hi] :: stringIterator rest
      | [] => [[hi]]
      end
  end.

(** The UTF-16 encoding of a supplementary-plane code point. *)
Definition utf16 (cp : Z) : jsstring :=
  if cp <? 0x10000 then [cp]
  else [0xD800 + (cp - 0x10000) / 0x400; 0xDC00 + (cp - 0x10000) mod 0x400].

(** ** Character classes

    [\s] of a regular expression and the characters removed by
    [String.prototype.trim] are the same set: WhiteSpace and
    LineTerminator of ECMAScript. *)
Definition isWhiteSpace (c : Z) : bool :=
  ((0x09 <=? c) && (c <=? 0x0D)) || (c =? 0x20) || (c =? 0xA0) || (c =? 0x1680)
  || ((0x2000 <=? c) && (c <=? 0x200A)) || (c =? 0x2028) || (c =? 0x2029)
  || (c =? 0x202F) || (c =? 0x205F) || (c =? 0x3000) || (c =? 0xFEFF).

(** [\p{P}] is the General_Category Punctuation of the Unicode Character
    Database shipped with the script engine; the table below is that of
    Unicode 14.0, as inclusive code point intervals. *)
Definition punctuationRanges : list (Z * Z) :=
  [
   (0x21, 0x23); (0x25, 0x2A); (0x2C, 0x2F); (0x3A, 0x3B); (0x3F, 0x40);
   (0x5B, 0x5D); (0x5F, 0x5F); (0x7B, 0x7B); (0x7D, 0x7D); (0xA1, 0xA1);
   (0xA7, 0xA7); (0xAB, 0xAB); (0xB6, 0xB7); (0xBB, 0xBB); (0xBF, 0xBF);
   (0x37E, 0x37E); (0x387, 0x387); (0x55A, 0x55F); (0x589, 0x58A); (0x5BE, 0x5BE);
   (0x5C0, 0x5C0); (0x5C3, 0x5C3); (0x5C6, 0x5C6); (0x5F3, 0x5F4); (0x609, 0x60A);
   (0x60C, 0x60D); (0x61B, 0x61B); (0x61D, 0x61F); (0x66A, 0x66D); (0x6D4, 0x6D4);
   (0x700, 0x70D); (0x7F7, 0x7F9); (0x830, 0x83E); (0x85E, 0x85E); (0x964, 0x965);
   (0x970, 0x970); (0x9FD, 0x9FD); (0xA76, 0xA76); (0xAF0, 0xAF0); (0xC77, 0xC77);
   (0xC84, 0xC84); (0xDF4, 0xDF4); (0xE4F, 0xE4F); (0xE5A, 0xE5B); (0xF04, 0xF12);
   (0xF14, 0xF14); (0xF3A, 0xF3D); (0xF85, 0xF85); (0xFD0, 0xFD4); (0xFD9, 0xFDA);
   (0x104A, 0x104F); (0x10FB, 0x10FB); (0x1360, 0x1368); (0x1400, 0x1400); (0x166E, 0x166E);
   (0x169B, 0x169C); (0x16EB, 0x16ED); (0x1735, 0x1736); (0x17D4, 0x17D6); (0x17D8, 0x17DA);
   (0x1800, 0x180A); (0x1944, 0x1945); (0x1A1E, 0x1A1F); (0x1AA0, 0x1AA6); (0x1AA8, 0x1AAD);
   (0x1B5A, 0x1B60); (0x1B7D, 0x1B7E); (0x1BFC, 0x1BFF); (0x1C3B, 0x1C3F); (0x1C7E, 0x1C7F);
   (0x1CC0, 0x1CC7); (0x1CD3, 0x1CD3); (0x2010, 0x2027); (0x2030, 0x2043); (0x2045, 0x2051);
   (0x2053, 0x205E); (0x207D, 0x207E); (0x208D, 0x208E); (0x2308, 0x230B); (0x2329, 0x232A);
   (0x2768, 0x2775); (0x27C5, 0x27C6); (0x27E6, 0x27EF); (0x2983, 0x2998); (0x29D8, 0x29DB);
   (0x29FC, 0x29FD); (0x2CF9, 0x2CFC); (0x2CFE, 0x2CFF); (0x2D70, 0x2D70); (0x2E00, 0x2E2E);
   (0x2E30, 0x2E4F); (0x2E52, 0x2E5D); (0x3001, 0x3003); (0x3008, 0x3011); (0x3014, 0x301F);
   (0x3030, 0x3030); (0x303D, 0x303D); (0x30A0, 0x30A0); (0x30FB, 0x30FB); (0xA4FE, 0xA4FF);
   (0xA60D, 0xA60F); (0xA673, 0xA673); (0xA67E, 0xA67E); (0xA6F2, 0xA6F7); (0xA874, 0xA877);
   (0xA8CE, 0xA8CF); (0xA8F8, 0xA8FA); (0xA8FC, 0xA8FC); (0xA92E, 0xA92F); (0xA95F, 0xA95F);
   (0xA9C1, 0xA9CD); (0xA9DE, 0xA9DF); (0xAA5C, 0xAA5F); (0xAADE, 0xAADF); (0xAAF0, 0xAAF1);
   (0xABEB, 0xABEB); (0xFD3E, 0xFD3F); (0xFE10, 0xFE19); (0xFE30, 0xFE52); (0xFE54, 0xFE61);
   (0xFE63, 0xFE63); (0xFE68, 0xFE68); (0xFE6A, 0xFE6B); (0xFF01, 0xFF03); (0xFF05, 0xFF0A);
   (0xFF0C, 0xFF0F); (0xFF1A, 0xFF1B); (0xFF1F, 0xFF20); (0xFF3B, 0xFF3D); (0xFF3F, 0xFF3F);
   (0xFF5B, 0xFF5B); (0xFF5D, 0xFF5D); (0xFF5F, 0xFF65); (0x10100, 0x10102); (0x1039F, 0x1039F);
   (0x103D0, 0x103D0); (0x1056F, 0x1056F); (0x10857, 0x10857); (0x1091F, 0x1091F); (0x1093F, 0x1093F);
   (0x10A50, 0x10A58); (0x10A7F, 0x10A7F); (0x10AF0, 0x10AF6); (0x10B39, 0x10B3F); (0x10B99, 0x10B9C);
   (0x10EAD, 0x10EAD); (0x10F55, 0x10F59); (0x10F86, 0x10F89); (0x11047, 0x1104D); (0x110BB, 0x110BC);
   (0x110BE, 0x110C1); (0x11140, 0x11143); (0x11174, 0x11175); (0x111C5, 0x111C8); (0x111CD, 0x111CD);
   (0x111DB, 0x111DB); (0x111DD, 0x111DF); (0x11238, 0x1123D); (0x112A9, 0x112A9); (0x1144B, 0x1144F);
   (0x1145A, 0x1145B); (0x1145D, 0x1145D); (0x114C6, 0x114C6); (0x115C1, 0x115D7); (0x11641, 0x11643);
   (0x11660, 0x1166C); (0x116B9, 0x116B9); (0x1173C, 0x1173E); (0x1183B, 0x1183B); (0x11944, 0x11946);
   (0x119E2, 0x119E2); (0x11A3F, 0x11A46); (0x11A9A, 0x11A9C); (0x11A9E, 0x11AA2); (0x11C41, 0x11C45);
   (0x11C70, 0x11C71); (0x11EF7, 0x11EF8); (0x11FFF, 0x11FFF); (0x12470, 0x12474); (0x12FF1, 0x12FF2);
   (0x16A6E, 0x16A6F); (0x16AF5, 0x16AF5); (0x16B37, 0x16B3B); (0x16B44, 0x16B44); (0x16E97, 0x16E9A);
   (0x16FE2, 0x16FE2); (0x1BC9F, 0x1BC9F); (0x1DA87, 0x1DA8B); (0x1E95E, 0x1E95F)
  ].

Definition inInterval (c : Z) (r : Z * Z) : bool := (fst r <=? c) && (c <=? snd r).

Definition unicodePunctuation (c : Z) : bool := existsb (inInterval c) punctuationRanges.

Fixpoint trimStart (s : jsstring) : jsstring :=
  match s with
  | [] => []
  | c :: rest => if isWhiteSpace c then trimStart rest else s
  end.

Definition trimEnd (s : jsstring) : jsstring := rev (trimStart (rev s)).

Definition trim (s : jsstring) : jsstring := trimEnd (trimStart s).

(** ** Objects used as tables

    An object literal or an object filled by assignment is kept as its list
    of own properties in insertion order, which is the order of
    [Object.entries] for the keys used here. *)
Section Objects.
Context {K V : Type} (eqb : K -> K -> bool).

Fixpoint obj_get (k : K) (o : list (K * V)) : option V :=
  match o with
  | [] => None
  | (k', v) :: rest => if eqb k k' then Some v else obj_get k rest
  end.

Fixpoint obj_set (k : K) (v : V) (o : list (K * V)) : list (K * V) :=
  match o with
  | [] => [(k, v)]
  | (k', v') :: rest =>
      if eqb k k' then (k, v) :: rest else (k', v') :: obj_set k v rest
  end.

(** An object literal: properties are defined left to right, a repeated
    key overwrites the earlier value. *)
Definition obj_literal (props : list (K * V)) : list (K * V) :=
  fold_left (fun o kv => obj_set (fst kv) (snd kv) o) props [].
End Objects.

(** JavaScript values that are [null]/[undefined] or a string. *)
Definition truthy (v : option string) : bool :=
  match v with
  | Some s => negb (s =? "")%string
  | None => false
  end.

(** [a || b] *)
Definition js_or (a b : option string) : option string :=
  if truthy a then a else b.

(** [a === b] on values that are [null] or a string. *)
Definition script_eqb (a b : option string) : bool :=
  match a, b with
  | None, None => true
  | Some s, Some t => (s =? t)%string
  | _, _ => false
  end.

(** The property key a script value is converted to in [table[script]]. *)
Definition propertyKey (v : option string) : string :=
  match v with
  | Some s => s
  | None => "null"
  end.

(** ** Configuration

    The fields of [this.config] read by the classifier, the segmenter and
    the renderer. *)
Record CssClasses := {
  wrapper : option string;
  useShortNames : bool;
  scriptSpecific : option (list (string * string))
}.

Record Config := {
  preserveWhitespace : bool;
  minSegmentLength : Z;
  glyphOverrides : list (jsstring * string);
  languageOverrides : list (string * string);
  cssClasses : CssClasses
}.

Definition DEFAULT_CONFIG : Config := {|
  preserveWhitespace := true;
  minSegmentLength := 1;
  glyphOverrides := [];
  languageOverrides := [];
  cssClasses := {| wrapper := Some ""; useShortNames := true; scriptSpecific := None |}
|}.

(** ** Tables built by the constructor *)

Definition pairedPunctuation : list (jsstring * jsstring) :=
  obj_literal jsstring_eqb
    [ ([0x28], [0x29]);      (* ( ) *)
      ([0x5B], [0x5D]);      (* [ ] *)
      ([0x7B], [0x7D]);      (* { } *)
      ([0x22], [0x22]);      (* double quote *)
      ([0x27], [0x27]);      (* single quote *)
      ([0x22], [0x22]);
      ([0x27], [0x27]);
      ([0xAB], [0xBB]);      (* guillemets *)
      ([0x2039], [0x203A]);  (* single guillemets *)
      ([0x300C], [0x300D]);  (* corner brackets *)
      ([0x300E], [0x300F]);  (* white corner brackets *)
      ([0x3008], [0x3009]);  (* angle brackets *)
      ([0x300A], [0x300B])   (* double angle brackets *) ].

Definition closingToOpening : list (jsstring * jsstring) :=
  fold_left (fun o entry => obj_set jsstring_eqb (snd entry) (fst entry) o)
            pairedPunctuation [].

Definition scriptRanges : list (string * list (Z * Z)) :=
  [ ("latin", [(0x0041, 0x005A); (0x0061, 0x007A); (0x00C0, 0x00FF);
               (0x0100, 0x017F); (0x0180, 0x024F); (0x1E00, 0x1EFF)]);
    ("korean", [(0xAC00, 0xD7AF); (0x1100, 0x11FF); (0x3130, 0x318F);
                (0xA960, 0xA97F); (0xD7B0, 0xD7FF)]);
    ("japanese", [(0x3040, 0x309F); (0x30A0, 0x30FF); (0x31F0, 0x31FF)]);
    ("chinese", [(0x4E00, 0x9FFF); (0x3400, 0x4DBF); (0x20000, 0x2A6DF);
                 (0x2A700, 0x2B73F); (0x2B740, 0x2B81F); (0x2B820, 0x2CEAF);
                 (0x2CEB0, 0x2EBEF); (0xF900, 0xFAFF)]);
    ("arabic", [(0x0600, 0x06FF); (0x0750, 0x077F); (0x08A0, 0x08FF);
                (0xFB50, 0xFDFF); (0xFE70, 0xFEFF)]);
    ("cyrillic", [(0x0400, 0x04FF); (0x0500, 0x052F); (0x2DE0, 0x2DFF);
                  (0xA640, 0xA69F)]);
    ("greek", [(0x0370, 0x03FF); (0x1F00, 0x1FFF)]);
    ("hebrew", [(0x0590, 0x05FF); (0xFB1D, 0xFB4F)]);
    ("thai", [(0x0E00, 0x0E7F)]);
    ("devanagari", [(0x0900, 0x097F)]) ].

Definition scriptToLang (cfg : Config) : list (string * string) :=
  obj_literal String.eqb
    ([ ("latin", "en"); ("korean", "ko"); ("japanese", "ja"); ("chinese", "zh");
       ("arabic", "ar"); ("cyrillic", "ru"); ("greek", "el"); ("hebrew", "he");
       ("thai", "th"); ("devanagari", "hi") ] ++ languageOverrides cfg).

Definition scriptToShortClass : list (string * string) :=
  [ ("latin", "ml-en"); ("korean", "ml-ko"); ("japanese", "ml-ja");
    ("chinese", "ml-zh"); ("arabic", "ml-ar"); ("cyrillic", "ml-ru");
    ("greek", "ml-el"); ("hebrew", "ml-he"); ("thai", "ml-th");
    ("devanagari", "ml-hi") ].

Definition glyphOverrideMap (cfg : Config) : list (jsstring * string) :=
  fold_left
    (fun m entry =>
       fold_left (fun m' glyph => obj_set jsstring_eqb glyph (snd entry) m')
                 (stringIterator (fst entry)) m)
    (glyphOverrides cfg) [].

(** ** detectScript *)

(** [charCode >= start && charCode <= end]; every comparison with
    [undefined] is false. *)
Definition inRange (charCode : option Z) (r : Z * Z) : bool :=
  match charCode with
  | Some c => (fst r <=? c) && (c <=? snd r)
  | None => false
  end.

(** The two nested loops over [Object.entries(this.scriptRanges)]: the first
    script, in table order, one of whose intervals holds the code point. *)
Definition rangeScript (charCode : option Z) : option string :=
  match find (fun entry => existsb (inRange charCode) (snd entry)) scriptRanges with
  | Some entry => Some (fst entry)
  | None => None
  end.

Definition detectScript (cfg : Config) (char : jsstring) : string :=
  let byRange :=
    match rangeScript (codePointAt0 char) with
    | Some script => script
    | None => "latin"
    end in
  match obj_get jsstring_eqb char (glyphOverrideMap cfg) with
  | Some override => if truthy (Some override) then override else byRange
  | None => byRange
  end.

(** ** segmentText *)

Record Segment := mkSegment {
  text : jsstring;
  script : option string;
  lang : option string
}.

(** An entry [{ char, script, index }] of [pairStack]. *)
Record PairEntry := mkPairEntry {
  pair_char : jsstring;
  pair_script : option string;
  pair_index : nat
}.

(** The variables of [segmentText] that live across loop iterations. *)
Record LoopState := mkLoopState {
  segments : list Segment;
  currentSegment : jsstring;
  currentScript : option string;
  lastNonWhitespaceScript : option string;
  pairStack : list PairEntry
}.

Definition initialState : LoopState :=
  mkLoopState [] [] None None [].

(** [currentSegment.trim() && currentSegment.trim().length >= minSegmentLength] *)
Definition passesFilter (cfg : Config) (s : jsstring) : bool :=
  match trim s with
  | [] => false
  | _ :: _ => minSegmentLength cfg <=? Z.of_nat (List.length (trim s))
  end.

(** The guarded [segments.push({ text, script, lang })]. *)
Definition pushSegment (cfg : Config) (st : LoopState) : list Segment :=
  if passesFilter cfg (currentSegment st)
  then segments st ++
       [ mkSegment (currentSegment st) (currentScript st)
                   (obj_get String.eqb (propertyKey (currentScript st)) (scriptToLang cfg)) ]
  else segments st.

(** The downward search [for (j = pairStack.length - 1; j >= 0; j--)] for an
    entry whose [char] is [openingChar]: the script of the topmost such entry
    and the stack with that entry spliced out. *)
Fixpoint spliceOpening (openingChar : jsstring) (stack : list PairEntry)
  : option (option string * list PairEntry) :=
  match stack with
  | [] => None
  | e :: above =>
      match spliceOpening openingChar above with
      | Some (s, above') => Some (s, e :: above')
      | None =>
          if jsstring_eqb (pair_char e) openingChar
          then Some (pair_script e, above)
          else None
      end
  end.

Section Segmenter.
(** [\p{P}] of the engine running the script. *)
Variable punctuation : Z -> bool.
Variable cfg : Config.

(** [/[\s\p{P}]/u.test(char)] on a one-unit string. *)
Definition isWhitespaceOrPunctuation (c : Z) : bool :=
  isWhiteSpace c || punctuation c.

(** The look-ahead loop [for (k = i + 1; k < text.length; k++)] over the
    rest of the text: [shouldEndSegment] after it. *)
Fixpoint shouldEndSegment (charScript : option string) (rest : jsstring) : bool :=
  match rest with
  | [] => false
  | nextChar :: rest' =>
      if isWhitespaceOrPunctuation nextChar
      then shouldEndSegment charScript rest'
      else negb (script_eqb (Some (detectScript cfg [nextChar])) charScript)
  end.

(** [currentScript || lastNonWhitespaceScript || 'latin'] *)
Definition contextScript (st : LoopState) : option string :=
  js_or (js_or (currentScript st) (lastNonWhitespaceScript st)) (Some "latin").

(** First part of the whitespace/punctuation branch: [charScript] is
    resolved, the stack is pushed or spliced, and a closer whose script
    differs from the segment under construction closes that segment. *)
Definition resolvePunctuation (i : nat) (char : jsstring) (st : LoopState)
  : option string * LoopState :=
  match obj_get jsstring_eqb char pairedPunctuation with
  | Some _ =>
      let charScript := contextScript st in
      (charScript,
       mkLoopState (segments st) (currentSegment st) (currentScript st)
                   (lastNonWhitespaceScript st)
                   (pairStack st ++ [mkPairEntry char charScript i]))
  | None =>
      match obj_get jsstring_eqb char closingToOpening with
      | Some openingChar =>
          let (found, stack) :=
            match spliceOpening openingChar (pairStack st) with
            | Some (s, stack') => (s, stack')
            | None => (None, pairStack st)
            end in
          let charScript := if truthy found then found else contextScript st in
          if truthy (currentScript st)
             && negb (script_eqb (currentScript st) charScript)
          then (charScript,
                mkLoopState (pushSegment cfg st) [] charScript
                            (lastNonWhitespaceScript st) stack)
          else (charScript,
                mkLoopState (segments st) (currentSegment st) (currentScript st)
                            (lastNonWhitespaceScript st) stack)
      | None =>
          (js_or (currentScript st) (lastNonWhitespaceScript st), st)
      end
  end.

(** The body of the loop for a whitespace or punctuation character when
    [preserveWhitespace] is set, up to its [continue]. *)
Definition stepPunctuation (i : nat) (c : Z) (rest : jsstring) (st : LoopState)
  : LoopState :=
  let char := [c] in
  let (charScript, st1) := resolvePunctuation i char st in
  let st2 :=
    mkLoopState (segments st1) (currentSegment st1 ++ char)
                (match currentScript st1 with
                 | None => if truthy charScript then charScript else None
                 | Some _ => currentScript st1
                 end)
                (lastNonWhitespaceScript st1) (pairStack st1) in
  match obj_get jsstring_eqb char closingToOpening with
  | Some _ =>
      if negb (script_eqb charScript (lastNonWhitespaceScript st2))
         && shouldEndSegment charScript rest
      then mkLoopState (pushSegment cfg st2) [] None
                       (lastNonWhitespaceScript st2) (pairStack st2)
      else st2
  | None => st2
  end.

(** The body of the loop for every other character. *)
Definition stepCharacter (c : Z) (st : LoopState) : LoopState :=
  let char := [c] in
  let charScript := Some (detectScript cfg char) in
  match currentScript st with
  | None =>
      mkLoopState (segments st) (currentSegment st ++ char) charScript
                  charScript (pairStack st)
  | Some _ =>
      if script_eqb (currentScript st) charScript
      then mkLoopState (segments st) (currentSegment st ++ char)
                       (currentScript st) charScript (pairStack st)
      else mkLoopState (pushSegment cfg st) char charScript charScript
                       (pairStack st)
  end.

(** One iteration at index [i]: [c] is [text[i]], [rest] the code units
    after it. *)
Definition step (i : nat) (c : Z) (rest : jsstring) (st : LoopState) : LoopState :=
  if preserveWhitespace cfg && isWhitespaceOrPunctuation c
  then stepPunctuation i c rest st
  else stepCharacter c st.

(** [for (let i = 0; i < text.length; i++)] from index [i] on. *)
Fixpoint loop (i : nat) (text : jsstring) (st : LoopState) : LoopState :=
  match text with
  | [] => st
  | c :: rest => loop (S i) rest (step i c rest st)
  end.

Definition segmentText (text : jsstring) : list Segment :=
  pushSegment cfg (loop 0 text initialState).
End Segmenter.

(** ** wrapSegments *)

Definition quote : jsstring := [0x22].

(** [`${segment.lang}`] and [`${segment.script}`]: the string itself, or the
    name of the missing value. *)
Definition langString (v : option string) : string :=
  match v with
  | Some s => s
  | None => "undefined"
  end.

Definition scriptString (v : option string) : string :=
  match v with
  | Some s => s
  | None => "null"
  end.

(** [cssClass += (cssClass ? ' ' : '') + name] *)
Definition addClass (cssClass name : string) : string :=
  (cssClass ++ (if truthy (Some cssClass) then " " else "") ++ name)%string.

(** The class list of a segment: wrapper class, short name, script-specific
    class, in this order, separated by one space. *)
Definition cssClassOf (cfg : Config) (segment : Segment) : string :=
  let key := propertyKey (script segment) in
  let cssClass0 :=                    (* [wrapper || ''] *)
    match wrapper (cssClasses cfg) with
    | Some w => w
    | None => ""
    end in
  let cssClass1 :=
    if useShortNames (cssClasses cfg)
    then match obj_get String.eqb key scriptToShortClass with
         | Some name => if truthy (Some name) then addClass cssClass0 name else cssClass0
         | None => cssClass0
         end
    else cssClass0 in
  match scriptSpecific (cssClasses cfg) with
  | Some table =>
      match obj_get String.eqb key table with
      | Some name => if truthy (Some name) then addClass cssClass1 name else cssClass1
      | None => cssClass1
      end
  | None => cssClass1
  end.

(** The callback of [segments.map]. *)
Definition wrapSegment (cfg : Config) (segment : Segment) : jsstring :=
  match trim (text segment) with
  | [] => text segment
  | _ :: _ =>
      let cssClass := cssClassOf cfg segment in
      let classAttr :=
        if truthy (Some cssClass)
        then lit " class=" ++ quote ++ lit cssClass ++ quote
        else [] in
      lit "<span lang=" ++ quote ++ lit (langString (lang segment)) ++ quote
      ++ lit " data-script=" ++ quote ++ lit (scriptString (script segment)) ++ quote
      ++ classAttr ++ lit ">" ++ text segment ++ lit "</span>"
  end.

(** [array.join(separator)] on an array of strings. *)
Fixpoint join (separator : jsstring) (parts : list jsstring) : jsstring :=
  match parts with
  | [] => []
  | [p] => p
  | p :: rest => p ++ separator ++ join separator rest
  end.

Definition wrapSegments (cfg : Config) (segs : list Segment) : jsstring :=
  join [] (map (wrapSegment cfg) segs).

(** ** processTextNode

    The part of [processTextNode] before the document is touched: [None]
    when the function returns early on a text without visible character,
    otherwise the markup assigned to [temp.innerHTML], whose parsed nodes are
    inserted in place of the text node, which is then removed. *)
Definition processTextNode (punctuation : Z -> bool) (cfg : Config)
           (textContent : jsstring) : option jsstring :=
  match trim textContent with
  | [] => None
  | _ :: _ => Some (wrapSegments cfg (segmentText punctuation cfg textContent))
  end.

(** ** wrap: the elements a selector designates

    The document is known to [wrap] through four lookups only.
    [querySelectorAll] raises a SyntaxError on a string that is no valid
    selector: [None] stands for that exception. *)
Record Document (Element : Type) := {
  getElementById : jsstring -> option Element;
  getElementsByClassName : jsstring -> list Element;
  getElementsByTagName : jsstring -> list Element;
  querySelectorAll : jsstring -> option (list Element)
}.
Arguments getElementById {Element}.
Arguments getElementsByClassName {Element}.
Arguments getElementsByTagName {Element}.
Arguments querySelectorAll {Element}.

(** The argument of [wrap]: a string, an [HTMLElement], or anything else. *)
Inductive Selector (Element : Type) :=
| SelectorString (selector : jsstring)
| SelectorElement (element : Element)
| SelectorOther.
Arguments SelectorString {Element}.
Arguments SelectorElement {Element}.
Arguments SelectorOther {Element}.

(** [selector.includes(c)] and [selector.startsWith(c)] for a one-unit
    string [c]; [selector.slice(1)]. *)
Definition includes (selector : jsstring) (c : Z) : bool :=
  existsb (Z.eqb c) selector.

Definition startsWith (selector : jsstring) (c : Z) : bool :=
  match selector with
  | first :: _ => first =? c
  | [] => false
  end.

Definition slice1 (selector : jsstring) : jsstring := tl selector.

(** The array [elements] of [wrap] before [forEach]; [None] when
    [querySelectorAll] raised.  In [selector.includes('>', '+', '~')] the
    second argument is the start position, which ['+'] converts to 0, and the
    third is ignored: the call tests for ['>'] alone. *)
Definition wrapElements {Element : Type} (document : Document Element)
           (selector : Selector Element) : option (list Element) :=
  match selector with
  | SelectorString sel =>
      if startsWith sel 0x23 then             (* '#' *)
        match getElementById document (slice1 sel) with
        | Some element => Some [element]
        | None => Some []
        end
      else if startsWith sel 0x2E then        (* '.' *)
        Some (getElementsByClassName document (slice1 sel))
      else if includes sel 0x20 || includes sel 0x3E then
        querySelectorAll document sel
      else
        let byTag := getElementsByTagName document sel in
        let afterId :=
          match byTag with
          | [] => match getElementById document sel with
                  | Some byId => [byId]
                  | None => []
                  end
          | _ :: _ => byTag
          end in
        match afterId with
        | [] => Some (getElementsByClassName document sel)
        | _ :: _ => Some afterId
        end
  | SelectorElement element => Some [element]
  | SelectorOther => Some []
  end.

(** The value [wrap] returns: [elements.length]. *)
Definition wrap {Element : Type} (document : Document Element)
           (selector : Selector Element) : option nat :=
  option_map (@List.length Element) (wrapElements document selector).

(** * Specification vocabulary *)

(** The rendering of a non-blank segment as the specification words it:
    [<span lang="{lang}" data-script="{script}"{classAttr}>{text}</span>],
    where [{classAttr}] is [ class="{classes}"] for a non-empty class list
    and nothing otherwise. *)
Definition span_markup (lang script classes : string) (txt : jsstring) : jsstring :=
  lit "<span lang=" ++ quote ++ lit lang ++ quote
  ++ lit " data-script=" ++ quote ++ lit script ++ quote
  ++ (if (classes =? "")%string then [] else lit " class=" ++ quote ++ lit classes ++ quote)
  ++ lit ">" ++ txt ++ lit "</span>".

(** The intervals configured for the chinese script. *)
Definition chineseRanges : list (Z * Z) :=
  match obj_get String.eqb "chinese" scriptRanges with
  | Some ranges => ranges
  | None => []
  end.

(** A string of whitespace only. *)
Definition blank (s : jsstring) : bool := forallb isWhiteSpace s.

(** Loop invariant: the text consumed so far is made of closed pieces
    followed by the segment under construction, and the segments pushed so
    far are the pieces that passed the filter. *)
Definition piecesInvariant (cfg : Config) (consumed : jsstring) (st : LoopState) : Prop :=
  exists pieces,
    List.concat pieces ++ currentSegment st = consumed
    /\ map text (segments st) = filter (passesFilter cfg) pieces.

(** The characters that reach [detectScript] in the loop. *)
Definition classified (punctuation : Z -> bool) (cfg : Config) (c : Z) : bool :=
  negb (preserveWhitespace cfg && isWhitespaceOrPunctuation punctuation c).

(** [scr] is the script of every classified character of [s]. *)
Definition agrees (punctuation : Z -> bool) (cfg : Config)
           (scr : option string) (s : jsstring) : Prop :=
  forall c, In c s -> classified punctuation cfg c = true ->
            scr = Some (detectScript cfg [c]).

Definition scriptInvariant (punctuation : Z -> bool) (cfg : Config) (st : LoopState) : Prop :=
  agrees punctuation cfg (currentScript st) (currentSegment st)
  /\ Forall (fun seg => agrees punctuation cfg (script seg) (text seg)) (segments st).






(** The maximal runs of consecutive code units that [detectScript] assigns
    to the same script, each with its script. *)
Fixpoint scriptRuns (cfg : Config) (txt : jsstring) : list (string * jsstring) :=
  match txt with
  | [] => []
  | c :: rest =>
      match scriptRuns cfg rest with
      | (s, run) :: more =>
          if (s =? detectScript cfg [c])%string
          then (s, c :: run) :: more
          else (detectScript cfg [c], [c]) :: (s, run) :: more
      | [] => [(detectScript cfg [c], [c])]
      end
  end.

(** A run under construction put in front of the runs of the rest of the
    text: it absorbs the first of them when the scripts agree. *)
Definition mergeRun (run : string * jsstring) (runs : list (string * jsstring))
  : list (string * jsstring) :=
  match runs with
  | (s, r) :: more =>
      if (s =? fst run)%string then (fst run, snd run ++ r) :: more else run :: runs
  | [] => [run]
  end.

(** A script value that is [null] or one of the names of the range table. *)
Definition knownOrNull (v : option string) : Prop :=
  v = None \/ exists s, v = Some s /\ In s (map fst scriptRanges).

(** Loop invariant: every script held by the state is null or a name of the
    range table, and every pushed segment has the language of its script. *)
Definition scriptsKnown (cfg : Config) (st : LoopState) : Prop :=
  knownOrNull (currentScript st)
  /\ knownOrNull (lastNonWhitespaceScript st)
  /\ Forall (fun e => knownOrNull (pair_script e)) (pairStack st)
  /\ Forall (fun seg =>
               knownOrNull (script seg)
               /\ lang seg = obj_get String.eqb (propertyKey (script seg)) (scriptToLang cfg))
            (segments st).

(** A text whose first code unit was classified by [detectScript]. *)
Definition startsClassified (punctuation : Z -> bool) (cfg : Config) (s : jsstring) : Prop :=
  exists c r, s = c :: r /\ classified punctuation cfg c = true.

(** Loop invariant: every pushed segment, and the segment under
    construction, starts with a classified code unit or at the start of the
    text consumed so far. *)
Definition startInvariant (punctuation : Z -> bool) (cfg : Config)
           (consumed : jsstring) (st : LoopState) : Prop :=
  Forall (fun seg =>
            startsClassified punctuation cfg (text seg)
            \/ exists rest, consumed = text seg ++ rest)
         (segments st)
  /\ (startsClassified punctuation cfg (currentSegment st)
      \/ currentSegment st = consumed).


(** The segment made of a run. *)
Definition runSegment (cfg : Config) (run : string * jsstring) : Segment :=
  mkSegment (snd run) (Some (fst run)) (obj_get String.eqb (fst run) (scriptToLang cfg)).

(** ** Sample texts and configurations *)

(** "(한글)" *)
Definition text_paren_hangul : jsstring := [0x28; 0xD55C; 0xAE00; 0x29].

(** "price: $5 (오천원)" *)
Definition text_price : jsstring :=
  lit "price: $5 (" ++ [0xC624; 0xCC9C; 0xC6D0] ++ lit ")".

(** "Hello 안녕하세요 world" *)
Definition text_hello : jsstring :=
  lit "Hello " ++ [0xC548; 0xB155; 0xD558; 0xC138; 0xC694] ++ lit " world".



(** [minSegmentLength: 3] *)
Definition config_min3 : Config := {|
  preserveWhitespace := true;
  minSegmentLength := 3;
  glyphOverrides := [];
  languageOverrides := [];
  cssClasses := cssClasses DEFAULT_CONFIG
|}.

(** "a(한) 中" *)
Definition text_three_scripts : jsstring :=
  lit "a(" ++ [0xD55C] ++ lit ") " ++ [0x4E2D].

(** "中𠀀": U+4E2D followed by U+20000, the first ideograph of CJK
    Extension B, as the surrogate pair D840 DC00. *)
Definition text_extension_b : jsstring := [0x4E2D] ++ utf16 0x20000.

(** A document with three [p] elements (numbered 1 to 3), the second of
    id "intro", and nothing else; its [querySelectorAll] is left out of use
    by raising on every selector. *)
Definition sample_document : Document nat := {|
  getElementById := fun name => if jsstring_eqb name (lit "intro") then Some 2%nat else None;
  getElementsByClassName := fun _ => [];
  getElementsByTagName := fun name => if jsstring_eqb name (lit "p") then [1%nat; 2%nat; 3%nat] else [];
  querySelectorAll := fun _ => None
|}.

(** [preserveWhitespace: false] *)
Definition config_no_folding : Config := {|
  preserveWhitespace := false;
  minSegmentLength := 1;
  glyphOverrides := [];
  languageOverrides := [];
  cssClasses := cssClasses DEFAULT_CONFIG
|}.

(** [glyphOverrides: { '()': 'korean', ')': 'latin' }] *)
Definition config_two_overrides : Config := {|
  preserveWhitespace := true;
  minSegmentLength := 1;
  glyphOverrides := [(lit "()", "korean"); (lit ")", "latin")];
  languageOverrides := [];
  cssClasses := cssClasses DEFAULT_CONFIG
|}.

(** [languageOverrides: { chinese: 'zh-TW' }] *)
Definition config_traditional : Config := {|
  preserveWhitespace := true;
  minSegmentLength := 1;
  glyphOverrides := [];
  languageOverrides := [("chinese", "zh-TW")];
  cssClasses := cssClasses DEFAULT_CONFIG
|}.

(** * Properties *)

(** ** Trimming *)

Lemma trimStart_suffix (s : jsstring) : exists l, s = l ++ trimStart s.
Proof.
  induction s as [|c s IH]; simpl.
  - exists []. reflexivity.
  - destruct (isWhiteSpace c).
    + destruct IH as [l Hl]. exists (c :: l). simpl. now rewrite <- Hl.
    + exists []. reflexivity.
Qed.

Lemma trimStart_head (s : jsstring) (x : Z) (r : jsstring) :
  trimStart s = x :: r -> isWhiteSpace x = false.
Proof.
  induction s as [|c s IH]; simpl; [discriminate|].
  destruct (isWhiteSpace c) eqn:Hc; [exact IH|].
  intros H. injection H as -> _. exact Hc.
Qed.

Lemma trimStart_keep (u : jsstring) (x : Z) (w : jsstring) :
  isWhiteSpace x = false -> exists u', trimStart (u ++ x :: w) = u' ++ x :: w.
Proof.
  intros Hx. induction u as [|c u IH]; simpl.
  - rewrite Hx. exists []. reflexivity.
  - destruct (isWhiteSpace c).
    + exact IH.
    + exists (c :: u). reflexivity.
Qed.

Lemma trimStart_blank (s : jsstring) :
  trimStart s = [] <-> forallb isWhiteSpace s = true.
Proof.
  induction s as [|c s IH]; simpl; [tauto|].
  destruct (isWhiteSpace c); simpl; [exact IH|].
  split; discriminate.
Qed.

Lemma trimEnd_prefix (s : jsstring) : exists r, s = trimEnd s ++ r.
Proof.
  unfold trimEnd. destruct (trimStart_suffix (rev s)) as [l Hl].
  exists (rev l). rewrite <- rev_app_distr, <- Hl. symmetry. apply rev_involutive.
Qed.

Lemma trimEnd_keep (w : jsstring) (y : Z) (v : jsstring) :
  isWhiteSpace y = false -> exists v', trimEnd (w ++ y :: v) = w ++ y :: v'.
Proof.
  intros Hy. unfold trimEnd.
  replace (rev (w ++ y :: v)) with (rev v ++ y :: rev w)
    by (rewrite rev_app_distr; simpl; now rewrite <- app_assoc).
  destruct (trimStart_keep (rev v) y (rev w) Hy) as [u' ->].
  exists (rev u'). rewrite rev_app_distr. simpl.
  rewrite rev_involutive, <- app_assoc. reflexivity.
Qed.

Lemma trimEnd_last (s : jsstring) :
  trimEnd s = [] \/ exists m y, trimEnd s = m ++ [y] /\ isWhiteSpace y = false.
Proof.
  unfold trimEnd. destruct (trimStart (rev s)) as [|x r] eqn:E.
  - left. reflexivity.
  - right. exists (rev r), x. split; [reflexivity|].
    eapply trimStart_head; eassumption.
Qed.

Lemma trim_head (s : jsstring) (x : Z) (r : jsstring) :
  trim s = x :: r -> isWhiteSpace x = false.
Proof.
  unfold trim. destruct (trimStart s) as [|x0 q] eqn:E.
  - discriminate.
  - pose proof (trimStart_head _ _ _ E) as Hx0.
    destruct (trimEnd_keep [] x0 q Hx0) as [v' Hv]. simpl in Hv.
    rewrite Hv. intros H. injection H as <- _. exact Hx0.
Qed.

Lemma trim_infix (s : jsstring) : exists l r, s = l ++ trim s ++ r.
Proof.
  destruct (trimStart_suffix s) as [l Hl].
  destruct (trimEnd_prefix (trimStart s)) as [r Hr].
  exists l, r. unfold trim. now rewrite <- Hr.
Qed.

(** A string that trims to nothing consists of whitespace only. *)
Lemma trim_blank (s : jsstring) : trim s = [] -> forallb isWhiteSpace s = true.
Proof.
  unfold trim, trimEnd. intros H.
  apply (f_equal (@rev Z)) in H. rewrite rev_involutive in H. simpl in H.
  apply trimStart_blank in H.
  destruct (trimStart s) as [|x q] eqn:E.
  - now apply trimStart_blank.
  - pose proof (trimStart_head _ _ _ E) as Hx.
    rewrite forallb_forall in H. specialize (H x).
    rewrite H in Hx; [discriminate|].
    apply in_rev. rewrite rev_involutive. now left.
Qed.

(** The trimmed length of a piece of a string never exceeds the trimmed
    length of the string. *)
Lemma trim_length_infix (a p b : jsstring) :
  (List.length (trim p) <= List.length (trim (a ++ p ++ b)))%nat.
Proof.
  destruct (trim p) as [|x m'] eqn:E; [simpl; lia|].
  pose proof (trim_head _ _ _ E) as Hx.
  destruct (trim_infix p) as (l & r & Hp). rewrite E in Hp.
  assert (Hlast : exists m y, x :: m' = m ++ [y] /\ isWhiteSpace y = false).
  { unfold trim in E. destruct (trimEnd_last (trimStart p)) as [H | H].
    - rewrite H in E. discriminate.
    - rewrite E in H. exact H. }
  destruct Hlast as (m & y & Hm & Hy).
  unfold trim.
  replace (a ++ p ++ b) with ((a ++ l) ++ x :: (m' ++ r ++ b))
    by (rewrite Hp; simpl; rewrite <- !app_assoc; simpl; now rewrite <- !app_assoc).
  destruct (trimStart_keep (a ++ l) x (m' ++ r ++ b) Hx) as [u' ->].
  replace (u' ++ x :: m' ++ r ++ b) with ((u' ++ m) ++ y :: (r ++ b)).
  2:{ change (x :: m' ++ r ++ b) with ((x :: m') ++ r ++ b).
      rewrite Hm, <- !app_assoc. reflexivity. }
  destruct (trimEnd_keep (u' ++ m) y (r ++ b) Hy) as [v' ->].
  rewrite Hm, !length_app. simpl. lia.
Qed.

(** ** The segments are pieces of the input *)

Lemma passesFilter_spec (cfg : Config) (s : jsstring) :
  passesFilter cfg s = true
  <-> trim s <> [] /\ minSegmentLength cfg <= Z.of_nat (List.length (trim s)).
Proof.
  unfold passesFilter. destruct (trim s) as [|x r].
  - split; [discriminate|]. intros [H _]. now contradiction H.
  - rewrite Z.leb_le. split; [intros H; split; [discriminate|exact H]|tauto].
Qed.

Lemma piece_infix (pieces : list jsstring) (p : jsstring) :
  In p pieces -> exists a b, List.concat pieces = a ++ p ++ b.
Proof.
  intros Hin. apply in_split in Hin. destruct Hin as (l1 & l2 & ->).
  exists (List.concat l1), (List.concat l2). rewrite concat_app. reflexivity.
Qed.

Section Pieces.
Variable punctuation : Z -> bool.
Variable cfg : Config.

Lemma pushSegment_texts (st : LoopState) :
  map text (pushSegment cfg st)
  = map text (segments st) ++ filter (passesFilter cfg) [currentSegment st].
Proof.
  unfold pushSegment. simpl.
  destruct (passesFilter cfg (currentSegment st)).
  - rewrite map_app. reflexivity.
  - now rewrite app_nil_r.
Qed.

(** One iteration closes the segment under construction or not, appends
    the character, and closes the segment again or not. *)
Lemma step_shape (i : nat) (c : Z) (rest : jsstring) (st : LoopState) :
  exists before after : bool,
    let texts1 := if before
                  then map text (segments st)
                       ++ filter (passesFilter cfg) [currentSegment st]
                  else map text (segments st) in
    let current := (if before then [] else currentSegment st) ++ [c] in
    let st' := step punctuation cfg i c rest st in
    map text (segments st')
    = (if after then texts1 ++ filter (passesFilter cfg) [current] else texts1)
    /\ currentSegment st' = (if after then [] else current).
Proof.
  unfold step, stepPunctuation, stepCharacter, resolvePunctuation.
  destruct (preserveWhitespace cfg && isWhitespaceOrPunctuation punctuation c).
  2:{ destruct (currentScript st);
        [destruct (script_eqb _ _)|]; simpl;
        [ exists false, false | exists true, false | exists false, false ];
        simpl; rewrite ?pushSegment_texts; split; reflexivity. }
  destruct (obj_get jsstring_eqb [c] pairedPunctuation);
    destruct (obj_get jsstring_eqb [c] closingToOpening);
    try destruct (spliceOpening _ _) as [[? ?]|];
    repeat match goal with
           | |- context [if ?x then _ else _] => destruct x eqn:?
           end;
    simpl;
    first [ exists false, false; simpl; split; reflexivity
          | exists true, false; simpl; rewrite ?pushSegment_texts; simpl; split; reflexivity
          | exists false, true; simpl; rewrite ?pushSegment_texts; simpl; split; reflexivity
          | exists true, true; simpl; rewrite ?pushSegment_texts; simpl;
            rewrite ?pushSegment_texts; simpl; split; reflexivity ].
Qed.

Lemma step_pieces (i : nat) (c : Z) (rest consumed : jsstring) (st : LoopState) :
  piecesInvariant cfg consumed st ->
  piecesInvariant cfg (consumed ++ [c]) (step punctuation cfg i c rest st).
Proof.
  intros (pieces & Hcat & Htexts).
  destruct (step_shape i c rest st) as (before & after & Hsegs & Hcur).
  cbv zeta in Hsegs, Hcur. unfold piecesInvariant.
  rewrite Hsegs, Hcur, Htexts. clear Hsegs Hcur.
  destruct before, after.
  - exists ((pieces ++ [currentSegment st]) ++ [[c]]). split.
    + rewrite !concat_app. simpl. rewrite !app_nil_r, <- Hcat. reflexivity.
    + rewrite !filter_app. reflexivity.
  - exists (pieces ++ [currentSegment st]). split.
    + rewrite concat_app. simpl. rewrite !app_nil_r, <- Hcat. reflexivity.
    + rewrite filter_app. reflexivity.
  - exists (pieces ++ [currentSegment st ++ [c]]). split.
    + rewrite concat_app. simpl. rewrite !app_nil_r, <- Hcat.
      now rewrite app_assoc.
    + rewrite filter_app. reflexivity.
  - exists pieces. split; [|reflexivity].
    now rewrite app_assoc, Hcat.
Qed.

Lemma loop_pieces (txt : jsstring) :
  forall (i : nat) (consumed : jsstring) (st : LoopState),
    piecesInvariant cfg consumed st ->
    piecesInvariant cfg (consumed ++ txt) (loop punctuation cfg i txt st).
Proof.
  induction txt as [|c rest IH]; intros i consumed st Hinv; simpl.
  - now rewrite app_nil_r.
  - replace (consumed ++ c :: rest) with ((consumed ++ [c]) ++ rest)
      by now rewrite <- app_assoc.
    apply IH. now apply step_pieces.
Qed.

(** The texts of the returned segments are, in order, the pieces that pass
    the emission filter among consecutive pieces making up the input. *)
Lemma segmentText_pieces (txt : jsstring) :
  exists pieces,
    List.concat pieces = txt
    /\ map text (segmentText punctuation cfg txt) = filter (passesFilter cfg) pieces.
Proof.
  assert (Hinit : piecesInvariant cfg [] initialState) by (exists []; split; reflexivity).
  destruct (loop_pieces txt 0%nat [] initialState Hinit) as (pieces & Hcat & Htexts).
  exists (pieces ++ [currentSegment (loop punctuation cfg 0 txt initialState)]).
  split.
  - rewrite concat_app. simpl. now rewrite app_nil_r.
  - unfold segmentText. now rewrite pushSegment_texts, Htexts, filter_app.
Qed.

End Pieces.

(** ** Classified characters carry the script of their segment *)

Section Scripts.
Variable punctuation : Z -> bool.
Variable cfg : Config.

Lemma agrees_nil (scr : option string) : agrees punctuation cfg scr [].
Proof. intros c []. Qed.

Lemma agrees_none (scr : option string) (s : jsstring) :
  agrees punctuation cfg None s -> agrees punctuation cfg scr s.
Proof. intros H c Hin Hc. specialize (H c Hin Hc). discriminate. Qed.

Lemma agrees_snoc (scr : option string) (s : jsstring) (c : Z) :
  agrees punctuation cfg scr s ->
  (classified punctuation cfg c = true -> scr = Some (detectScript cfg [c])) ->
  agrees punctuation cfg scr (s ++ [c]).
Proof.
  intros Hs Hc c' Hin Hcl. apply in_app_or in Hin. destruct Hin as [Hin | [<- | []]].
  - now apply Hs.
  - now apply Hc.
Qed.

Lemma pushSegment_agrees (st : LoopState) :
  scriptInvariant punctuation cfg st ->
  Forall (fun seg => agrees punctuation cfg (script seg) (text seg)) (pushSegment cfg st).
Proof.
  intros [Hcur Hsegs]. unfold pushSegment.
  destruct (passesFilter cfg (currentSegment st)); [|exact Hsegs].
  apply Forall_app. split; [exact Hsegs|].
  constructor; [exact Hcur | constructor].
Qed.

Lemma resolvePunctuation_scripts (i : nat) (char : jsstring) (st : LoopState) :
  scriptInvariant punctuation cfg st -> scriptInvariant punctuation cfg (snd (resolvePunctuation cfg i char st)).
Proof.
  intros Hinv. unfold resolvePunctuation.
  destruct (obj_get jsstring_eqb char pairedPunctuation); [exact Hinv|].
  destruct (obj_get jsstring_eqb char closingToOpening); [|exact Hinv].
  destruct (spliceOpening _ _) as [[found stack]|];
    match goal with
    | |- context [if ?b then (_, _) else _] => destruct b
    end; simpl;
    first [ exact Hinv
          | split; [apply agrees_nil | now apply pushSegment_agrees] ].
Qed.

Lemma step_scripts (i : nat) (c : Z) (rest : jsstring) (st : LoopState) :
  scriptInvariant punctuation cfg st -> scriptInvariant punctuation cfg (step punctuation cfg i c rest st).
Proof.
  intros Hinv. unfold step.
  destruct (preserveWhitespace cfg && isWhitespaceOrPunctuation punctuation c) eqn:Hclass.
  - (* whitespace or punctuation: the appended character is not classified punctuation cfg *)
    assert (Hc : classified punctuation cfg c = true -> False)
      by (unfold classified; rewrite Hclass; discriminate).
    unfold stepPunctuation.
    pose proof (resolvePunctuation_scripts i [c] st Hinv) as H1.
    destruct (resolvePunctuation cfg i [c] st) as [charScript st1].
    simpl in H1. destruct H1 as [Hcur1 Hsegs1].
    assert (H2 : scriptInvariant punctuation cfg
                   (mkLoopState (segments st1) (currentSegment st1 ++ [c])
                      (match currentScript st1 with
                       | None => if truthy charScript then charScript else None
                       | Some _ => currentScript st1
                       end)
                      (lastNonWhitespaceScript st1) (pairStack st1))).
    { split; simpl; [|exact Hsegs1].
      apply agrees_snoc; [|intros H; destruct (Hc H)].
      destruct (currentScript st1); [exact Hcur1|].
      now apply agrees_none. }
    destruct (obj_get jsstring_eqb [c] closingToOpening); [|exact H2].
    match goal with |- context [if ?b then _ else _] => destruct b end;
      [|exact H2].
    split; simpl; [apply agrees_nil | now apply pushSegment_agrees].
  - (* a classified punctuation cfg character *)
    assert (Hc : classified punctuation cfg c = true) by (unfold classified; now rewrite Hclass).
    destruct Hinv as [Hcur Hsegs]. unfold stepCharacter.
    destruct (currentScript st) as [s|] eqn:Ecur.
    + destruct (script_eqb (Some s) (Some (detectScript cfg [c]))) eqn:Eeq.
      * simpl in Eeq. apply String.eqb_eq in Eeq. subst s.
        split; simpl; [|exact Hsegs].
        apply agrees_snoc; [exact Hcur | reflexivity].
      * split; simpl.
        -- intros c' [<- | []] _. reflexivity.
        -- apply pushSegment_agrees. split; [now rewrite Ecur | exact Hsegs].
    + split; simpl; [|exact Hsegs].
      apply agrees_snoc; [|reflexivity].
      now apply agrees_none.
Qed.

Lemma loop_scripts (txt : jsstring) :
  forall (i : nat) (st : LoopState),
    scriptInvariant punctuation cfg st -> scriptInvariant punctuation cfg (loop punctuation cfg i txt st).
Proof.
  induction txt as [|c rest IH]; intros i st Hinv; simpl; [exact Hinv|].
  apply IH. now apply step_scripts.
Qed.

(** In every returned segment, each character that was classified punctuation cfg by
    [detectScript] has the script of the segment. *)
Lemma segmentText_scripts (txt : jsstring) :
  Forall (fun seg => agrees punctuation cfg (script seg) (text seg))
         (segmentText punctuation cfg txt).
Proof.
  unfold segmentText. apply pushSegment_agrees. apply loop_scripts.
  split; [apply agrees_nil | constructor].
Qed.
End Scripts.

(** ** Text of a single script *)



Section SingleScript.
Variable punctuation : Z -> bool.
Variable s : string.







End SingleScript.

(** ** Whitespace-only pieces *)

Lemma blank_trim (s : jsstring) : blank s = true -> trim s = [].
Proof.
  intros H. apply trimStart_blank in H. unfold trim. now rewrite H.
Qed.




Lemma filter_none {A : Type} (f : A -> bool) (l : list A) :
  (forall x, In x l -> f x = false) -> filter f l = [].
Proof.
  induction l as [|x l IH]; simpl; intros H; [reflexivity|].
  rewrite (H x (or_introl eq_refl)). apply IH. intros y Hy. apply H. now right.
Qed.

(** ** Classification by range *)

Lemma existsb_outside (cp : Z) (ranges : list (Z * Z)) :
  Forall (fun r => cp < fst r \/ snd r < cp) ranges ->
  existsb (inRange (Some cp)) ranges = false.
Proof.
  induction 1 as [|r ranges Hr _ IH]; simpl; [reflexivity|].
  rewrite IH, orb_false_r. apply andb_false_iff.
  destruct Hr; [left | right]; apply Z.leb_gt; assumption.
Qed.

Lemma find_none_intro {A : Type} (f : A -> bool) (l : list A) :
  Forall (fun x => f x = false) l -> find f l = None.
Proof.
  induction 1 as [|x l Hx _ IH]; simpl; [reflexivity|]. now rewrite Hx.
Qed.

Lemma rangeScript_none (cp : Z) :
  Forall (fun entry => Forall (fun r => cp < fst r \/ snd r < cp) (snd entry))
         scriptRanges ->
  rangeScript (Some cp) = None.
Proof.
  intros H. unfold rangeScript. rewrite find_none_intro; [reflexivity|].
  eapply Forall_impl; [|exact H]. intros entry. apply existsb_outside.
Qed.

Lemma no_overrides (cfg : Config) (char : jsstring) :
  glyphOverrides cfg = [] ->
  detectScript cfg char
  = match rangeScript (codePointAt0 char) with
    | Some script => script
    | None => "latin"
    end.
Proof.
  intros H. unfold detectScript, glyphOverrideMap. rewrite H. reflexivity.
Qed.

Lemma surrogate_latin (cfg : Config) (c : Z) :
  glyphOverrides cfg = [] -> isSurrogate c = true -> detectScript cfg [c] = "latin".
Proof.
  intros Hcfg Hc. rewrite (no_overrides cfg _ Hcfg). simpl codePointAt0.
  unfold isSurrogate in Hc. apply andb_prop in Hc. destruct Hc as [Hlo Hhi].
  apply Z.leb_le in Hlo, Hhi.
  rewrite rangeScript_none; [reflexivity|].
  unfold scriptRanges.
  repeat first [apply Forall_cons | apply Forall_nil]; simpl; lia.
Qed.

Lemma surrogate_not_whitespace (c : Z) :
  isSurrogate c = true -> isWhiteSpace c = false.
Proof.
  intros Hc. unfold isSurrogate in Hc. apply andb_prop in Hc.
  destruct Hc as [Hlo Hhi]. apply Z.leb_le in Hlo, Hhi.
  unfold isWhiteSpace. repeat apply orb_false_intro;
    first [ apply Z.eqb_neq; lia
          | apply andb_false_iff; right; apply Z.leb_gt; lia ].
Qed.

Lemma codePointAt0_utf16 (cp : Z) :
  0x10000 <= cp <= 0x10FFFF -> codePointAt0 (utf16 cp) = Some cp.
Proof.
  intros Hcp. unfold utf16.
  destruct (Z.ltb_spec cp 0x10000) as [Hlt | _]; [lia|].
  unfold codePointAt0, isHighSurrogate, isLowSurrogate.
  assert (Hq : 0 <= (cp - 0x10000) / 0x400 < 0x400)
    by (split; [apply Z.div_pos; lia | apply Z.div_lt_upper_bound; lia]).
  assert (Hr : 0 <= (cp - 0x10000) mod 0x400 < 0x400) by (apply Z.mod_pos_bound; lia).
  pose proof (Z.div_mod (cp - 0x10000) 0x400 ltac:(lia)) as Hdm.
  replace (0xD800 <=? 0xD800 + (cp - 0x10000) / 0x400) with true
    by (symmetry; apply Z.leb_le; lia).
  replace (0xD800 + (cp - 0x10000) / 0x400 <=? 0xDBFF) with true
    by (symmetry; apply Z.leb_le; lia).
  replace (0xDC00 <=? 0xDC00 + (cp - 0x10000) mod 0x400) with true
    by (symmetry; apply Z.leb_le; lia).
  replace (0xDC00 + (cp - 0x10000) mod 0x400 <=? 0xDFFF) with true
    by (symmetry; apply Z.leb_le; lia).
  cbn [andb]. f_equal. lia.
Qed.

Lemma rangeScript_chinese (cp : Z) :
  0xFFFF < cp ->
  existsb (inInterval cp) chineseRanges = true ->
  rangeScript (Some cp) = Some "chinese".
Proof.
  intros Hcp Hin. unfold rangeScript, scriptRanges. cbn [find snd].
  rewrite !existsb_outside
    by (repeat first [apply Forall_cons | apply Forall_nil]; simpl; lia).
  change (inRange (Some cp)) with (inInterval cp).
  set (ranges := chineseRanges) in Hin. vm_compute in ranges. subst ranges.
  rewrite Hin. reflexivity.
Qed.

Lemma chinese_bound (cp : Z) :
  existsb (inInterval cp) chineseRanges = true -> cp <= 0x2EBEF.
Proof.
  intros H. apply existsb_exists in H. destruct H as (r & Hin & Hr).
  unfold inInterval in Hr. apply andb_prop in Hr. destruct Hr as [_ Hhi].
  apply Z.leb_le in Hhi.
  vm_compute in Hin.
  repeat (destruct Hin as [<- | Hin]; [simpl in Hhi; lia|]). destruct Hin.
Qed.

Lemma utf16_surrogates (cp : Z) :
  0x10000 <= cp <= 0x10FFFF -> Forall (fun c => isSurrogate c = true) (utf16 cp).
Proof.
  intros Hcp. unfold utf16.
  destruct (Z.ltb_spec cp 0x10000) as [Hlt | _]; [lia|].
  assert (Hq : 0 <= (cp - 0x10000) / 0x400 < 0x400)
    by (split; [apply Z.div_pos; lia | apply Z.div_lt_upper_bound; lia]).
  assert (Hr : 0 <= (cp - 0x10000) mod 0x400 < 0x400) by (apply Z.mod_pos_bound; lia).
  repeat first [apply Forall_cons | apply Forall_nil];
    unfold isSurrogate; apply andb_true_intro; split; apply Z.leb_le; lia.
Qed.

Lemma existsb_disjoint (lo hi : Z) (ranges : list (Z * Z)) :
  forallb (fun r => (snd r <? lo) || (hi <? fst r)) ranges = true ->
  forall c, lo <= c <= hi -> existsb (inInterval c) ranges = false.
Proof.
  intros Hall c Hc. induction ranges as [|r ranges IH]; simpl in *; [reflexivity|].
  apply andb_prop in Hall. destruct Hall as [Hr Hall].
  rewrite (IH Hall), orb_false_r. unfold inInterval. apply andb_false_iff.
  apply orb_prop in Hr. destruct Hr as [Hr | Hr]; apply Z.ltb_lt in Hr;
    [right | left]; apply Z.leb_gt; lia.
Qed.

(** No surrogate code unit is punctuation (surrogates have General_Category
    Cs). *)
Lemma unicodePunctuation_surrogate (c : Z) :
  isSurrogate c = true -> unicodePunctuation c = false.
Proof.
  intros Hc. unfold isSurrogate in Hc. apply andb_prop in Hc.
  destruct Hc as [Hlo Hhi]. apply Z.leb_le in Hlo, Hhi.
  apply (existsb_disjoint 0xD800 0xDFFF); [vm_compute; reflexivity | lia].
Qed.


Lemma join_empty_separator (parts : list jsstring) : join [] parts = List.concat parts.
Proof.
  induction parts as [|p parts IH]; [reflexivity|].
  simpl. destruct parts as [|q parts]; [now rewrite app_nil_r|].
  now rewrite <- IH.
Qed.

(** * The claims *)



(** Whitespace is also lost inside a text: in "a(한) 中" the space between
    ")" and "中" belongs to no returned segment. *)
Example whitespace_lost_between_scripts :
  map text (segmentText unicodePunctuation DEFAULT_CONFIG text_three_scripts)
  = [lit "a("; [0xD55C]; lit ")"; [0x4E2D]].
Proof. vm_compute. reflexivity. Qed.

(** C7: every segment returned by [segmentText], for every input and every
    configuration, has a non-empty trimmed text whose length is at least
    [minSegmentLength]. *)
Theorem segmentText_emission_filter
        (punctuation : Z -> bool) (cfg : Config) (txt : jsstring) :
  Forall (fun seg =>
            trim (text seg) <> []
            /\ minSegmentLength cfg <= Z.of_nat (List.length (trim (text seg))))
         (segmentText punctuation cfg txt).
Proof.
  destruct (segmentText_pieces punctuation cfg txt) as (pieces & _ & Htexts).
  apply Forall_forall. intros seg Hin.
  apply (in_map text) in Hin. rewrite Htexts in Hin.
  apply filter_In in Hin. destruct Hin as [_ Hpass].
  now apply passesFilter_spec in Hpass.
Qed.

(** C8: [segmentText] returns no segment for the empty string, and none for
    an input whose trimmed length is below [minSegmentLength]. *)
Theorem segmentText_empty_or_short (punctuation : Z -> bool) (cfg : Config) :
  segmentText punctuation cfg [] = []
  /\ forall txt,
       Z.of_nat (List.length (trim txt)) < minSegmentLength cfg ->
       segmentText punctuation cfg txt = [].
Proof.
  split; [reflexivity|].
  intros txt Hshort.
  destruct (segmentText_pieces punctuation cfg txt) as (pieces & Hcat & Htexts).
  assert (Hnone : filter (passesFilter cfg) pieces = []).
  { apply filter_none. intros p Hin.
    destruct (piece_infix pieces p Hin) as (a & b & Hab). rewrite Hcat in Hab.
    pose proof (trim_length_infix a p b) as Hlen. rewrite <- Hab in Hlen.
    destruct (passesFilter cfg p) eqn:E; [|reflexivity].
    apply passesFilter_spec in E. destruct E as [_ E]. exfalso. lia. }
  rewrite Hnone in Htexts. now apply map_eq_nil in Htexts.
Qed.

Lemma segmentText_empty_or_short_witness :
  segmentText unicodePunctuation config_min3 [] = []
  /\ segmentText unicodePunctuation config_min3 (lit "ab") = [].
Proof.
  split.
  - exact (proj1 (segmentText_empty_or_short unicodePunctuation config_min3)).
  - apply (proj2 (segmentText_empty_or_short unicodePunctuation config_min3)).
    vm_compute. reflexivity.
Defined.



(** C10: [segmentText] classifies code unit by code unit.  When no glyph
    override is configured, a lone surrogate is classified as latin; a
    supplementary-plane code point of a configured chinese range is
    classified as chinese when [detectScript] is given the whole character,
    yet its two code units are surrogates, and every returned segment that
    holds a surrogate has script latin, never chinese. *)
Theorem surrogates_never_chinese (punctuation : Z -> bool) (cfg : Config) :
  (forall c, isSurrogate c = true -> punctuation c = false) ->
  glyphOverrides cfg = [] ->
  (forall c, isSurrogate c = true -> detectScript cfg [c] = "latin")
  /\ (forall cp,
        0xFFFF < cp -> existsb (inInterval cp) chineseRanges = true ->
        detectScript cfg (utf16 cp) = "chinese"
        /\ Forall (fun c => isSurrogate c = true) (utf16 cp))
  /\ (forall txt,
        Forall (fun seg =>
                  forall c, In c (text seg) -> isSurrogate c = true ->
                            script seg = Some "latin" /\ script seg <> Some "chinese")
               (segmentText punctuation cfg txt)).
Proof.
  intros Hpunct Hcfg. split; [|split].
  - intros c Hc. now apply surrogate_latin.
  - intros cp Hcp Hin. pose proof (chinese_bound cp Hin) as Hmax. split.
    + rewrite (no_overrides cfg _ Hcfg), codePointAt0_utf16 by lia.
      now rewrite rangeScript_chinese.
    + apply utf16_surrogates. lia.
  - intros txt.
    eapply Forall_impl; [|apply (segmentText_scripts punctuation cfg txt)].
    intros seg Hagree c Hin Hc.
    assert (Hscript : script seg = Some "latin").
    { rewrite (Hagree c Hin); [now rewrite surrogate_latin|].
      unfold classified, isWhitespaceOrPunctuation.
      now rewrite (surrogate_not_whitespace c Hc), (Hpunct c Hc), andb_false_r. }
    split; [exact Hscript | rewrite Hscript; discriminate].
Qed.

Lemma surrogates_never_chinese_witness :
  detectScript DEFAULT_CONFIG [0xD840] = "latin"
  /\ detectScript DEFAULT_CONFIG (utf16 0x20000) = "chinese"
  /\ Forall (fun seg =>
               forall c, In c (text seg) -> isSurrogate c = true ->
                         script seg = Some "latin" /\ script seg <> Some "chinese")
            (segmentText unicodePunctuation DEFAULT_CONFIG text_extension_b).
Proof.
  destruct (surrogates_never_chinese unicodePunctuation DEFAULT_CONFIG
              unicodePunctuation_surrogate eq_refl) as (Hunit & Hfull & Hsegs).
  split; [|split].
  - apply Hunit. reflexivity.
  - apply Hfull; reflexivity.
  - apply Hsegs.
Defined.

(** "中𠀀": the ideograph U+20000 ends up in a latin segment of its own. *)
Example extension_b_segments :
  segmentText unicodePunctuation DEFAULT_CONFIG text_extension_b
  = [ mkSegment [0x4E2D] (Some "chinese") (Some "zh");
      mkSegment [0xD840; 0xDC00] (Some "latin") (Some "en") ].
Proof. vm_compute. reflexivity. Qed.





(** The markup of "Hello " as a latin segment under the default
    configuration. *)
Example wrapSegments_hello :
  wrapSegments DEFAULT_CONFIG [mkSegment (lit "Hello ") (Some "latin") (Some "en")]
  = lit "<span lang=" ++ quote ++ lit "en" ++ quote
    ++ lit " data-script=" ++ quote ++ lit "latin" ++ quote
    ++ lit " class=" ++ quote ++ lit "ml-en" ++ quote
    ++ lit ">Hello </span>".
Proof. vm_compute. reflexivity. Qed.

(** C3 (as amended): for "(한글)" under the default configuration the
    opening parenthesis, with no text before it, resolves to latin, the
    closing parenthesis takes the script of its opener, and [segmentText]
    returns "(" as latin, "한글" as korean and ")" as latin. *)
Theorem paren_hangul_segments :
  segmentText unicodePunctuation DEFAULT_CONFIG text_paren_hangul
  = [ mkSegment [0x28] (Some "latin") (Some "en");
      mkSegment [0xD55C; 0xAE00] (Some "korean") (Some "ko");
      mkSegment [0x29] (Some "latin") (Some "en") ].
Proof. vm_compute. reflexivity. Qed.

(** C3 (as stated) fails: the segments of "(한글)" that hold "(" or ")" are
    not all korean. *)
Lemma paren_hangul_not_korean :
  ~ Forall (fun seg =>
              In 0x28 (text seg) \/ In 0x29 (text seg) -> script seg = Some "korean")
           (segmentText unicodePunctuation DEFAULT_CONFIG text_paren_hangul).
Proof.
  intros H. vm_compute in H. apply Forall_inv in H.
  specialize (H (or_introl (or_introl eq_refl))). discriminate.
Qed.

(** C4 (as amended): for "price: $5 (오천원)" under the default
    configuration the digit and "$" are classified as latin, the opening
    parenthesis stays with the latin text before it, and [segmentText]
    returns "price: $5 (" as latin, "오천원" as korean and ")" as latin. *)
Theorem price_segments :
  detectScript DEFAULT_CONFIG [0x24] = "latin"
  /\ detectScript DEFAULT_CONFIG [0x35] = "latin"
  /\ segmentText unicodePunctuation DEFAULT_CONFIG text_price
     = [ mkSegment (lit "price: $5 (") (Some "latin") (Some "en");
         mkSegment [0xC624; 0xCC9C; 0xC6D0] (Some "korean") (Some "ko");
         mkSegment (lit ")") (Some "latin") (Some "en") ].
Proof. repeat split; vm_compute; reflexivity. Qed.

(** C4 (as stated) fails: no segment of "price: $5 (오천원)" is the korean
    segment "(오천원)". *)
Lemma price_parenthesized_not_one_segment :
  ~ exists seg,
      In seg (segmentText unicodePunctuation DEFAULT_CONFIG text_price)
      /\ text seg = [0x28; 0xC624; 0xCC9C; 0xC6D0; 0x29]
      /\ script seg = Some "korean".
Proof.
  intros (seg & Hin & Htext & _). vm_compute in Hin.
  repeat (destruct Hin as [<- | Hin]; [discriminate Htext|]). destruct Hin.
Qed.

(** C5: for "Hello 안녕하세요 world" under the default configuration
    [segmentText] returns exactly "Hello " as latin, "안녕하세요 " as korean
    and "world" as latin. *)
Theorem hello_segments :
  segmentText unicodePunctuation DEFAULT_CONFIG text_hello
  = [ mkSegment (lit "Hello ") (Some "latin") (Some "en");
      mkSegment ([0xC548; 0xB155; 0xD558; 0xC138; 0xC694] ++ lit " ")
                (Some "korean") (Some "ko");
      mkSegment (lit "world") (Some "latin") (Some "en") ].
Proof. vm_compute. reflexivity. Qed.

(** * Further properties of the code *)

(** ** Objects: assignment and lookup *)

Lemma jsstring_eqb_eq (s t : jsstring) : jsstring_eqb s t = true <-> s = t.
Proof.
  revert t. induction s as [|a s IH]; intros [|b t]; simpl;
    try (split; [discriminate | discriminate]); [tauto|].
  rewrite andb_true_iff, Z.eqb_eq, IH.
  split; [intros [-> ->]; reflexivity | intros H; injection H; auto].
Qed.

Section ObjectLaws.
Context {K V : Type} (eqb : K -> K -> bool).
Hypothesis eqb_eq : forall a b, eqb a b = true <-> a = b.

Lemma obj_get_set_same (k : K) (v : V) (o : list (K * V)) :
  obj_get eqb k (obj_set eqb k v o) = Some v.
Proof.
  assert (Hrefl : eqb k k = true) by now apply eqb_eq.
  induction o as [|[k' v'] o IH]; simpl.
  - now rewrite Hrefl.
  - destruct (eqb k k') eqn:E; simpl.
    + now rewrite Hrefl.
    + now rewrite E.
Qed.

Lemma obj_get_set_other (k k' : K) (v : V) (o : list (K * V)) :
  k <> k' -> obj_get eqb k (obj_set eqb k' v o) = obj_get eqb k o.
Proof.
  intros Hne.
  assert (Hkk' : eqb k k' = false).
  { destruct (eqb k k') eqn:E; [|reflexivity]. apply eqb_eq in E. contradiction. }
  induction o as [|[k0 v0] o IH]; simpl.
  - now rewrite Hkk'.
  - destruct (eqb k' k0) eqn:E; simpl.
    + apply eqb_eq in E. subst k0. now rewrite Hkk'.
    + now rewrite IH.
Qed.

(** Assigning the properties of [props] in order: a key keeps the value of
    its last assignment. *)
Lemma obj_get_assign_last (k : K) (v : V) (before after : list (K * V)) :
  ~ In k (map fst after) ->
  forall o,
    obj_get eqb k
      (fold_left (fun o kv => obj_set eqb (fst kv) (snd kv) o)
                 (before ++ (k, v) :: after) o)
    = Some v.
Proof.
  intros Hafter o. rewrite fold_left_app. simpl.
  generalize (obj_get_set_same k v
                (fold_left (fun o kv => obj_set eqb (fst kv) (snd kv) o) before o)).
  generalize (obj_set eqb k v
                (fold_left (fun o kv => obj_set eqb (fst kv) (snd kv) o) before o)).
  induction after as [|[k' v'] after IH]; intros o' Ho'; simpl; [exact Ho'|].
  apply IH.
  - intros Hin. apply Hafter. now right.
  - rewrite obj_get_set_other; [exact Ho'|].
    intros ->. apply Hafter. now left.
Qed.

Lemma obj_get_assign_none (k : K) (props : list (K * V)) :
  ~ In k (map fst props) ->
  forall o,
    obj_get eqb k (fold_left (fun o kv => obj_set eqb (fst kv) (snd kv) o) props o)
    = obj_get eqb k o.
Proof.
  induction props as [|[k' v'] props IH]; intros Hnot o; simpl; [reflexivity|].
  rewrite IH by (intros Hin; apply Hnot; now right).
  apply obj_get_set_other. intros ->. apply Hnot. now left.
Qed.

Lemma obj_get_In (k : K) (v : V) (o : list (K * V)) :
  obj_get eqb k o = Some v -> In (k, v) o.
Proof.
  induction o as [|[k' v'] o IH]; simpl; [discriminate|].
  destruct (eqb k k') eqn:E.
  - apply eqb_eq in E. subst k'. intros H. injection H as ->. now left.
  - intros H. right. now apply IH.
Qed.
End ObjectLaws.

(** ** The tables of the constructor *)

Lemma glyphs_assigned (g : jsstring) (s : string) (glyphs : list jsstring) :
  forall m,
    obj_get jsstring_eqb g
      (fold_left (fun m' glyph => obj_set jsstring_eqb glyph s m') glyphs m)
    = if existsb (jsstring_eqb g) glyphs then Some s else obj_get jsstring_eqb g m.
Proof.
  induction glyphs as [|gl glyphs IH]; intros m; simpl; [reflexivity|].
  rewrite IH. destruct (jsstring_eqb g gl) eqn:E; simpl.
  - apply jsstring_eqb_eq in E. subst gl.
    rewrite (obj_get_set_same jsstring_eqb jsstring_eqb_eq).
    now destruct (existsb _ _).
  - rewrite (obj_get_set_other jsstring_eqb jsstring_eqb_eq); [reflexivity|].
    intros ->. rewrite (proj2 (jsstring_eqb_eq gl gl) eq_refl) in E. discriminate.
Qed.

Lemma existsb_jsstring (g : jsstring) (glyphs : list jsstring) :
  existsb (jsstring_eqb g) glyphs = true <-> In g glyphs.
Proof.
  rewrite existsb_exists. split.
  - intros (x & Hin & Hx). apply jsstring_eqb_eq in Hx. now subst.
  - intros Hin. exists g. split; [exact Hin | now apply jsstring_eqb_eq].
Qed.

Lemma overrides_skipped (g : jsstring) (entries : list (jsstring * string)) :
  Forall (fun entry => ~ In g (stringIterator (fst entry))) entries ->
  forall m,
    obj_get jsstring_eqb g
      (fold_left
         (fun m entry =>
            fold_left (fun m' glyph => obj_set jsstring_eqb glyph (snd entry) m')
                      (stringIterator (fst entry)) m)
         entries m)
    = obj_get jsstring_eqb g m.
Proof.
  induction 1 as [|entry entries Hentry _ IH]; intros m; simpl; [reflexivity|].
  rewrite IH, glyphs_assigned.
  destruct (existsb (jsstring_eqb g) (stringIterator (fst entry))) eqn:E;
    [|reflexivity].
  apply existsb_jsstring in E. contradiction.
Qed.

(** X1: [closingToOpening] is the inverse of [pairedPunctuation]: a glyph
    closes exactly the opener it is paired with. *)
Theorem closingToOpening_inverse (opening closing : jsstring) :
  obj_get jsstring_eqb opening pairedPunctuation = Some closing
  <-> obj_get jsstring_eqb closing closingToOpening = Some opening.
Proof.
  split; intros H; apply (obj_get_In jsstring_eqb jsstring_eqb_eq) in H;
    vm_compute in H;
    repeat (destruct H as [H | H]; [injection H as <- <-; reflexivity|]);
    destruct H.
Qed.

(** X2: in [glyphOverrideMap] a glyph has the script of the last entry of
    [glyphOverrides] whose key contains it (keys are read code point by code
    point), and no entry when no key contains it. *)
Theorem glyphOverrideMap_last_wins (cfg : Config) (glyph : jsstring) :
  (forall before glyphs script after,
      glyphOverrides cfg = before ++ (glyphs, script) :: after ->
      In glyph (stringIterator glyphs) ->
      Forall (fun entry => ~ In glyph (stringIterator (fst entry))) after ->
      obj_get jsstring_eqb glyph (glyphOverrideMap cfg) = Some script)
  /\ (Forall (fun entry => ~ In glyph (stringIterator (fst entry))) (glyphOverrides cfg) ->
      obj_get jsstring_eqb glyph (glyphOverrideMap cfg) = None).
Proof.
  unfold glyphOverrideMap. split.
  - intros before glyphs script after -> Hin Hafter.
    rewrite fold_left_app. simpl.
    rewrite (overrides_skipped glyph after Hafter), glyphs_assigned.
    apply existsb_jsstring in Hin. now rewrite Hin.
  - intros Hnone. now rewrite (overrides_skipped glyph _ Hnone).
Qed.

Lemma glyphOverrideMap_last_wins_witness :
  obj_get jsstring_eqb [0x29] (glyphOverrideMap config_two_overrides) = Some "latin"
  /\ obj_get jsstring_eqb [0x28] (glyphOverrideMap config_two_overrides) = Some "korean"
  /\ obj_get jsstring_eqb [0x5B] (glyphOverrideMap config_two_overrides) = None.
Proof.
  split; [|split].
  - apply (proj1 (glyphOverrideMap_last_wins config_two_overrides [0x29])
             [(lit "()", "korean")] (lit ")") "latin" []).
    + reflexivity.
    + simpl. now left.
    + constructor.
  - apply (proj1 (glyphOverrideMap_last_wins config_two_overrides [0x28])
             [] (lit "()") "korean" [(lit ")", "latin")]).
    + reflexivity.
    + simpl. now left.
    + repeat constructor. simpl. intros [H | []]. discriminate H.
  - apply (proj2 (glyphOverrideMap_last_wins config_two_overrides [0x5B])).
    repeat constructor; simpl; intros H;
      repeat (destruct H as [H | H]; [discriminate H|]); destruct H.
Defined.

(** X3: in [scriptToLang] a script named by [languageOverrides] has the
    language tag of its last override, and every other script keeps the
    tag of the built-in table. *)
Theorem scriptToLang_overrides (cfg : Config) (name : string) :
  (forall before tag after,
      languageOverrides cfg = before ++ (name, tag) :: after ->
      ~ In name (map fst after) ->
      obj_get String.eqb name (scriptToLang cfg) = Some tag)
  /\ (~ In name (map fst (languageOverrides cfg)) ->
      obj_get String.eqb name (scriptToLang cfg)
      = obj_get String.eqb name (scriptToLang DEFAULT_CONFIG)).
Proof.
  unfold scriptToLang, obj_literal. split.
  - intros before tag after -> Hafter. rewrite app_assoc.
    now apply (obj_get_assign_last String.eqb String.eqb_eq).
  - intros Hnone. rewrite fold_left_app.
    rewrite (obj_get_assign_none String.eqb String.eqb_eq _ _ Hnone).
    simpl languageOverrides. now rewrite app_nil_r.
Qed.

Lemma scriptToLang_overrides_witness :
  obj_get String.eqb "chinese" (scriptToLang config_traditional) = Some "zh-TW"
  /\ obj_get String.eqb "korean" (scriptToLang config_traditional)
     = obj_get String.eqb "korean" (scriptToLang DEFAULT_CONFIG).
Proof.
  split.
  - apply (proj1 (scriptToLang_overrides config_traditional "chinese") [] "zh-TW" []).
    + reflexivity.
    + simpl. tauto.
  - apply (proj2 (scriptToLang_overrides config_traditional "korean")).
    simpl. intros [H | []]. discriminate H.
Defined.

(** ** The classifier *)


Lemma rangeScript_name (charCode : option Z) (name : string) :
  rangeScript charCode = Some name -> In name (map fst scriptRanges).
Proof.
  unfold rangeScript.
  destruct (find _ scriptRanges) as [entry|] eqn:E; [|discriminate].
  intros H. injection H as <-. apply find_some in E. apply in_map. tauto.
Qed.








(** ** The segmenter: scripts, sizes, coverage *)

(** X6: in every segment returned by [segmentText], for every
    configuration, each code unit that the loop classified with
    [detectScript] (every code unit when [preserveWhitespace] is off, every
    code unit that is neither whitespace nor punctuation when it is on) is of
    the script of the segment. *)
Theorem segments_script_homogeneous
        (punctuation : Z -> bool) (cfg : Config) (txt : jsstring) :
  Forall (fun seg =>
            forall c,
              In c (text seg) ->
              preserveWhitespace cfg = false
              \/ isWhitespaceOrPunctuation punctuation c = false ->
              script seg = Some (detectScript cfg [c]))
         (segmentText punctuation cfg txt).
Proof.
  eapply Forall_impl; [|apply (segmentText_scripts punctuation cfg txt)].
  intros seg Hagree c Hin Hc. apply (Hagree c Hin).
  unfold classified. destruct Hc as [-> | ->]; [reflexivity|].
  now rewrite andb_false_r.
Qed.

Lemma concat_filter_length {A : Type} (f : list A -> bool) (pieces : list (list A)) :
  (List.length (List.concat (filter f pieces)) <= List.length (List.concat pieces))%nat.
Proof.
  induction pieces as [|p pieces IH]; simpl; [lia|].
  destruct (f p); simpl; rewrite !length_app; lia.
Qed.

Lemma concat_nonempty_length {A : Type} (pieces : list (list A)) :
  Forall (fun p => p <> []) pieces ->
  (List.length pieces <= List.length (List.concat pieces))%nat.
Proof.
  induction 1 as [|p pieces Hp _ IH]; simpl; [lia|].
  rewrite length_app. destruct p; [contradiction|]. simpl. lia.
Qed.

Lemma passesFilter_nonempty (cfg : Config) (p : jsstring) :
  passesFilter cfg p = true -> p <> [].
Proof.
  intros H ->. unfold passesFilter in H. simpl in H. discriminate.
Qed.

(** X7: for every input and configuration, no returned segment has an empty
    text, the texts of the segments together are no longer than the input,
    and there are at most as many segments as code units in the input. *)
Theorem segments_bounded (punctuation : Z -> bool) (cfg : Config) (txt : jsstring) :
  Forall (fun seg => text seg <> []) (segmentText punctuation cfg txt)
  /\ (List.length (List.concat (map text (segmentText punctuation cfg txt)))
      <= List.length txt)%nat
  /\ (List.length (segmentText punctuation cfg txt) <= List.length txt)%nat.
Proof.
  destruct (segmentText_pieces punctuation cfg txt) as (pieces & Hcat & Htexts).
  assert (Hne : Forall (fun p => p <> []) (map text (segmentText punctuation cfg txt))).
  { rewrite Htexts. apply Forall_forall. intros p Hp.
    apply filter_In in Hp. apply (passesFilter_nonempty cfg). tauto. }
  assert (Hlen : (List.length (List.concat (map text (segmentText punctuation cfg txt)))
                  <= List.length txt)%nat).
  { rewrite Htexts, <- Hcat. apply concat_filter_length. }
  split; [|split].
  - apply Forall_forall. intros seg Hin. rewrite Forall_forall in Hne.
    apply Hne. now apply in_map.
  - exact Hlen.
  - pose proof (concat_nonempty_length _ Hne) as H.
    rewrite length_map in H. lia.
Qed.

(** X8: for every configuration (any [minSegmentLength], with or without
    [preserveWhitespace]) the texts of the returned segments are, in order,
    the pieces that pass the emission filter among consecutive pieces whose
    concatenation is the input: segments never overlap, never repeat and
    never reorder text. *)
Theorem segments_are_pieces (punctuation : Z -> bool) (cfg : Config) (txt : jsstring) :
  exists pieces,
    List.concat pieces = txt
    /\ map text (segmentText punctuation cfg txt) = filter (passesFilter cfg) pieces.
Proof. apply segmentText_pieces. Qed.

Lemma trim_visible (s : jsstring) :
  trim s <> [] -> exists c, In c s /\ isWhiteSpace c = false.
Proof.
  intros Htrim. destruct (blank s) eqn:B.
  - apply blank_trim in B. contradiction.
  - unfold blank in B.
    assert (H : exists c, In c s /\ isWhiteSpace c = false).
    { induction s as [|c s IH]; simpl in B; [discriminate|].
      destruct (isWhiteSpace c) eqn:Ec.
      - simpl in B.
        assert (Ht : trim s <> []).
        { intros Ht. apply trim_blank in Ht. congruence. }
        destruct (IH Ht B) as (c' & Hin & Hc'). exists c'. split; [now right | exact Hc'].
      - exists c. split; [now left | exact Ec]. }
    exact H.
Qed.

Lemma visible_not_blank (p : jsstring) (c : Z) :
  In c p -> isWhiteSpace c = false -> trim p <> [].
Proof.
  intros Hin Hc Htrim. apply trim_blank in Htrim.
  rewrite forallb_forall in Htrim. rewrite (Htrim c Hin) in Hc. discriminate.
Qed.

(** X9: when [minSegmentLength] is at most 1, an input with a character that
    is not whitespace yields at least one segment. *)
Theorem visible_text_yields_segment
        (punctuation : Z -> bool) (cfg : Config) (txt : jsstring) :
  minSegmentLength cfg <= 1 ->
  trim txt <> [] ->
  exists seg rest, segmentText punctuation cfg txt = seg :: rest.
Proof.
  intros Hmin Htrim.
  destruct (segmentText_pieces punctuation cfg txt) as (pieces & Hcat & Htexts).
  destruct (trim_visible txt Htrim) as (c & Hin & Hc).
  rewrite <- Hcat in Hin. apply in_concat in Hin. destruct Hin as (p & Hp & Hcp).
  assert (Hpass : passesFilter cfg p = true).
  { apply passesFilter_spec. pose proof (visible_not_blank p c Hcp Hc) as Hne.
    split; [exact Hne|]. destruct (trim p); [contradiction|]. simpl List.length. lia. }
  destruct (segmentText punctuation cfg txt) as [|seg rest]; [|now exists seg, rest].
  simpl in Htexts.
  assert (Hfilter : In p (filter (passesFilter cfg) pieces))
    by (apply filter_In; now split).
  rewrite <- Htexts in Hfilter. destruct Hfilter.
Qed.

Lemma visible_text_yields_segment_witness :
  exists seg rest,
    segmentText unicodePunctuation DEFAULT_CONFIG text_three_scripts = seg :: rest.
Proof.
  apply (visible_text_yields_segment unicodePunctuation DEFAULT_CONFIG text_three_scripts).
  - vm_compute. discriminate.
  - vm_compute. discriminate.
Defined.

(** ** Text made of plain punctuation *)



(** ** Without whitespace folding *)

Lemma scriptRuns_cons (cfg : Config) (c : Z) (rest : jsstring) :
  scriptRuns cfg (c :: rest) = mergeRun (detectScript cfg [c], [c]) (scriptRuns cfg rest).
Proof.
  simpl. unfold mergeRun. simpl.
  destruct (scriptRuns cfg rest) as [|[s r] more]; [reflexivity|].
  destruct (s =? detectScript cfg [c])%string eqn:E; [|reflexivity].
  apply String.eqb_eq in E. now subst s.
Qed.

Lemma mergeRun_head (run : string * jsstring) (runs : list (string * jsstring)) :
  exists r more, mergeRun run runs = (fst run, r) :: more.
Proof.
  unfold mergeRun. destruct runs as [|[s r] more].
  - exists (snd run), []. now destruct run.
  - destruct (s =? fst run)%string.
    + now exists (snd run ++ r), more.
    + exists (snd run), ((s, r) :: more). now destruct run.
Qed.

Lemma mergeRun_same (s : string) (seg : jsstring) (c : Z)
      (runs : list (string * jsstring)) :
  mergeRun (s, seg ++ [c]) runs = mergeRun (s, seg) (mergeRun (s, [c]) runs).
Proof.
  unfold mergeRun. simpl. destruct runs as [|[s' r] more].
  - now rewrite String.eqb_refl.
  - destruct (s' =? s)%string eqn:E; rewrite String.eqb_refl.
    + now rewrite <- app_assoc.
    + reflexivity.
Qed.

Lemma loop_runs (punctuation : Z -> bool) (cfg : Config) :
  preserveWhitespace cfg = false ->
  forall (rest : jsstring) (i : nat) (st : LoopState) (s : string),
    currentScript st = Some s ->
    pushSegment cfg (loop punctuation cfg i rest st)
    = segments st
      ++ map (runSegment cfg)
             (filter (fun run => passesFilter cfg (snd run))
                     (mergeRun (s, currentSegment st) (scriptRuns cfg rest))).
Proof.
  intros Hfold. induction rest as [|c rest IH]; intros i st s Hcur.
  - simpl. unfold pushSegment, runSegment. rewrite Hcur. simpl.
    destruct (passesFilter cfg (currentSegment st)); simpl;
      [reflexivity | now rewrite app_nil_r].
  - cbn [loop]. unfold step. rewrite Hfold. cbn [andb].
    rewrite scriptRuns_cons. unfold stepCharacter. rewrite Hcur. cbn [script_eqb].
    destruct (s =? detectScript cfg [c])%string eqn:E.
    + apply String.eqb_eq in E. rewrite <- E.
      rewrite (IH _ _ s) by reflexivity. cbn [segments currentSegment].
      now rewrite mergeRun_same.
    + rewrite (IH _ _ (detectScript cfg [c])) by reflexivity. cbn [segments currentSegment].
      assert (Hmerge :
                mergeRun (s, currentSegment st)
                         (mergeRun (detectScript cfg [c], [c]) (scriptRuns cfg rest))
                = (s, currentSegment st)
                    :: mergeRun (detectScript cfg [c], [c]) (scriptRuns cfg rest)).
      { destruct (mergeRun_head (detectScript cfg [c], [c]) (scriptRuns cfg rest))
          as (r & more & ->).
        unfold mergeRun. cbn [fst snd]. now rewrite String.eqb_sym, E. }
      rewrite Hmerge. cbn [filter snd].
      unfold pushSegment. rewrite Hcur. cbn [propertyKey].
      destruct (passesFilter cfg (currentSegment st)); cbn [map];
        [now rewrite <- app_assoc | reflexivity].
Qed.

(** X11: with [preserveWhitespace] off, the returned segments are exactly
    the maximal runs of consecutive code units of one script (as
    [detectScript] classifies them, whitespace and punctuation included) that
    pass the emission filter, each with the script of its run and the
    language [scriptToLang] gives that script. *)
Theorem unfolded_segments_are_runs
        (punctuation : Z -> bool) (cfg : Config) (txt : jsstring) :
  preserveWhitespace cfg = false ->
  segmentText punctuation cfg txt
  = map (runSegment cfg)
        (filter (fun run => passesFilter cfg (snd run)) (scriptRuns cfg txt)).
Proof.
  intros Hfold. destruct txt as [|c rest]; [reflexivity|].
  unfold segmentText. cbn [loop]. unfold step. rewrite Hfold. cbn [andb].
  unfold stepCharacter. cbn [currentScript initialState].
  rewrite (loop_runs punctuation cfg Hfold rest _ _ (detectScript cfg [c])) by reflexivity.
  cbn [segments currentSegment app]. now rewrite scriptRuns_cons.
Qed.

Lemma unfolded_segments_are_runs_witness :
  segmentText unicodePunctuation config_no_folding text_hello
  = map (runSegment config_no_folding)
        (filter (fun run => passesFilter config_no_folding (snd run))
                (scriptRuns config_no_folding text_hello)).
Proof.
  apply (unfolded_segments_are_runs unicodePunctuation config_no_folding text_hello).
  reflexivity.
Defined.

(** ** The renderer *)

Lemma string_append_assoc (a b c : string) :
  ((a ++ b) ++ c)%string = (a ++ b ++ c)%string.
Proof. induction a as [|x a IH]; simpl; [reflexivity | now rewrite IH]. Qed.

(** X12: rendering distributes over concatenation of segment lists: the
    markup of a list of segments is the markup of its first part followed by
    the markup of the rest. *)
Theorem wrapSegments_app (cfg : Config) (segs1 segs2 : list Segment) :
  wrapSegments cfg (segs1 ++ segs2) = wrapSegments cfg segs1 ++ wrapSegments cfg segs2.
Proof.
  unfold wrapSegments. rewrite !join_empty_separator, map_app. apply concat_app.
Qed.

Lemma wrapSegment_verbatim (cfg : Config) (seg : Segment) :
  exists pre post, wrapSegment cfg seg = pre ++ text seg ++ post.
Proof.
  unfold wrapSegment. destruct (trim (text seg)).
  - exists [], []. now rewrite app_nil_r.
  - cbv zeta. rewrite !app_assoc. rewrite <- app_assoc. do 2 eexists. reflexivity.
Qed.

(** X13: the text of every segment appears in the markup as it is, code
    unit for code unit: nothing in it is escaped or dropped. *)
Theorem wrapSegments_text_verbatim (cfg : Config) (segs : list Segment) :
  Forall (fun seg => exists pre post, wrapSegments cfg segs = pre ++ text seg ++ post) segs.
Proof.
  apply Forall_forall. intros seg Hin.
  apply in_split in Hin. destruct Hin as (l1 & l2 & ->).
  unfold wrapSegments. rewrite join_empty_separator, map_app, concat_app.
  cbn [map List.concat].
  destruct (wrapSegment_verbatim cfg seg) as (pre & post & ->).
  exists (List.concat (map (wrapSegment cfg) l1) ++ pre),
         (post ++ List.concat (map (wrapSegment cfg) l2)).
  now rewrite <- !app_assoc.
Qed.

(** X14: the class list of a segment is made of the wrapper class, the
    short class name of the script (when [useShortNames] is set and the
    script has one) and the script-specific class, in this order, leaving
    out the empty ones and with exactly one space between two classes. *)
Theorem cssClassOf_parts (cfg : Config) (segment : Segment) :
  let key := propertyKey (script segment) in
  let wrapperClass :=
    match wrapper (cssClasses cfg) with Some w => w | None => "" end in
  let shortClass :=
    if useShortNames (cssClasses cfg)
    then match obj_get String.eqb key scriptToShortClass with
         | Some name => name
         | None => ""
         end
    else "" in
  let specificClass :=
    match scriptSpecific (cssClasses cfg) with
    | Some table =>
        match obj_get String.eqb key table with Some name => name | None => "" end
    | None => ""
    end in
  cssClassOf cfg segment
  = String.concat " " (filter (fun s => negb (s =? "")%string)
                              [wrapperClass; shortClass; specificClass]).
Proof.
  cbv zeta. unfold cssClassOf, addClass.
  destruct (wrapper (cssClasses cfg)) as [[|a w]|];
    destruct (useShortNames (cssClasses cfg));
    try destruct (obj_get String.eqb (propertyKey (script segment)) scriptToShortClass)
      as [[|b sh]|];
    destruct (scriptSpecific (cssClasses cfg)) as [table|];
    try destruct (obj_get String.eqb (propertyKey (script segment)) table)
      as [[|d sp]|];
    simpl; rewrite ?string_append_assoc; reflexivity.
Qed.

(** ** processTextNode *)

Lemma wrapSegment_span (cfg : Config) (seg : Segment) :
  trim (text seg) <> [] ->
  wrapSegment cfg seg
  = span_markup (langString (lang seg)) (scriptString (script seg))
                (cssClassOf cfg seg) (text seg).
Proof.
  intros Hne. unfold wrapSegment, span_markup.
  destruct (trim (text seg)); [contradiction|].
  simpl truthy. now destruct (cssClassOf cfg seg =? "")%string.
Qed.

Lemma segments_not_blank (punctuation : Z -> bool) (cfg : Config) (txt : jsstring) :
  forall seg, In seg (segmentText punctuation cfg txt) -> trim (text seg) <> [].
Proof.
  intros seg Hin.
  destruct (segmentText_pieces punctuation cfg txt) as (pieces & _ & Htexts).
  apply (in_map text) in Hin. rewrite Htexts in Hin. apply filter_In in Hin.
  destruct Hin as [_ Hpass]. apply passesFilter_spec in Hpass. tauto.
Qed.

Lemma short_text_no_segment (punctuation : Z -> bool) (cfg : Config) (txt : jsstring) :
  Z.of_nat (List.length (trim txt)) < minSegmentLength cfg ->
  segmentText punctuation cfg txt = [].
Proof.
  intros Hshort.
  destruct (segmentText_pieces punctuation cfg txt) as (pieces & Hcat & Htexts).
  assert (Hnone : filter (passesFilter cfg) pieces = []).
  { apply filter_none. intros p Hin.
    destruct (piece_infix pieces p Hin) as (a & b & Hab). rewrite Hcat in Hab.
    pose proof (trim_length_infix a p b) as Hlen. rewrite <- Hab in Hlen.
    destruct (passesFilter cfg p) eqn:E; [|reflexivity].
    apply passesFilter_spec in E. destruct E as [_ E]. exfalso. lia. }
  rewrite Hnone in Htexts. now apply map_eq_nil in Htexts.
Qed.

(** X15: [processTextNode] leaves a text node made of whitespace only
    alone; for any other text the markup that replaces the node is one span
    per segment of [segmentText], in order, and nothing else: the branch of
    [wrapSegments] that passes whitespace-only segments through as raw text
    is never taken. *)
Theorem processTextNode_markup
        (punctuation : Z -> bool) (cfg : Config) (textContent : jsstring) :
  processTextNode punctuation cfg textContent
  = if blank textContent then None
    else Some (List.concat
                 (map (fun seg =>
                         span_markup (langString (lang seg)) (scriptString (script seg))
                                     (cssClassOf cfg seg) (text seg))
                      (segmentText punctuation cfg textContent))).
Proof.
  unfold processTextNode.
  destruct (trim textContent) as [|x r] eqn:E.
  - apply trim_blank in E. unfold blank. now rewrite E.
  - destruct (blank textContent) eqn:B.
    + apply blank_trim in B. congruence.
    + unfold wrapSegments. rewrite join_empty_separator. do 2 f_equal.
      apply map_ext_in. intros seg Hin. apply wrapSegment_span.
      now apply (segments_not_blank punctuation cfg textContent).
Qed.

(** X16: when the visible text of a node is shorter than
    [minSegmentLength], [processTextNode] replaces the node by empty markup:
    the text is removed from the document. *)
Theorem processTextNode_short_text_removed
        (punctuation : Z -> bool) (cfg : Config) (textContent : jsstring) :
  trim textContent <> [] ->
  Z.of_nat (List.length (trim textContent)) < minSegmentLength cfg ->
  processTextNode punctuation cfg textContent = Some [].
Proof.
  intros Hne Hshort. unfold processTextNode.
  rewrite (short_text_no_segment punctuation cfg textContent Hshort).
  destruct (trim textContent); [contradiction | reflexivity].
Qed.

Lemma processTextNode_short_text_removed_witness :
  processTextNode unicodePunctuation config_min3 (lit "ab") = Some [].
Proof.
  apply (processTextNode_short_text_removed unicodePunctuation config_min3 (lit "ab")).
  - vm_compute. discriminate.
  - vm_compute. reflexivity.
Defined.

(** ** The pairing stack *)

(** X17: a closing glyph is matched with the entry of its opening glyph
    nearest to the top of [pairStack]; that entry alone is removed, the
    others keep their order; when no entry has the opening glyph the search
    finds nothing. *)
Theorem spliceOpening_topmost (openingChar : jsstring) (stack : list PairEntry) :
  (forall found stack',
      spliceOpening openingChar stack = Some (found, stack') ->
      exists below e above,
        stack = below ++ e :: above
        /\ stack' = below ++ above
        /\ pair_char e = openingChar
        /\ pair_script e = found
        /\ Forall (fun e' => pair_char e' <> openingChar) above)
  /\ (spliceOpening openingChar stack = None ->
      Forall (fun e => pair_char e <> openingChar) stack).
Proof.
  induction stack as [|e stack [IHsome IHnone]]; simpl.
  - split; [discriminate | constructor].
  - destruct (spliceOpening openingChar stack) as [[f s']|].
    + split; [|discriminate].
      intros found stack' H. injection H as <- <-.
      destruct (IHsome f s' eq_refl) as (below & e0 & above & -> & -> & Hc & Hs & Habove).
      exists (e :: below), e0, above. repeat split; assumption.
    + specialize (IHnone eq_refl).
      destruct (jsstring_eqb (pair_char e) openingChar) eqn:E.
      * split; [|discriminate].
        intros found stack' H. injection H as <- <-.
        apply jsstring_eqb_eq in E.
        exists [], e, stack. repeat split; assumption.
      * split; [discriminate|]. intros _. constructor; [|exact IHnone].
        intros H. apply jsstring_eqb_eq in H. congruence.
Qed.

Lemma spliceOpening_topmost_witness :
  exists below e above,
    [mkPairEntry [0x28] (Some "latin") 0; mkPairEntry [0x5B] (Some "korean") 1;
     mkPairEntry [0x28] (Some "korean") 2; mkPairEntry [0x5B] (Some "latin") 3]
    = below ++ e :: above
    /\ [mkPairEntry [0x28] (Some "latin") 0; mkPairEntry [0x5B] (Some "korean") 1;
        mkPairEntry [0x5B] (Some "latin") 3] = below ++ above
    /\ pair_char e = [0x28]
    /\ pair_script e = Some "korean"
    /\ Forall (fun e' => pair_char e' <> [0x28]) above.
Proof.
  apply (proj1 (spliceOpening_topmost [0x28]
                  [mkPairEntry [0x28] (Some "latin") 0; mkPairEntry [0x5B] (Some "korean") 1;
                   mkPairEntry [0x28] (Some "korean") 2; mkPairEntry [0x5B] (Some "latin") 3])).
  reflexivity.
Defined.

(** ** Scripts and languages of the segments *)

Lemma js_or_known (a b : option string) :
  knownOrNull a -> knownOrNull b -> knownOrNull (js_or a b).
Proof. intros Ha Hb. unfold js_or. now destruct (truthy a). Qed.

Lemma latin_known : knownOrNull (Some "latin").
Proof. right. exists "latin". split; [reflexivity | simpl; now left]. Qed.

Lemma detectScript_known (cfg : Config) (char : jsstring) :
  glyphOverrides cfg = [] -> knownOrNull (Some (detectScript cfg char)).
Proof.
  intros Hcfg. rewrite (no_overrides cfg char Hcfg). right.
  destruct (rangeScript (codePointAt0 char)) as [name|] eqn:E.
  - exists name. split; [reflexivity | now apply rangeScript_name in E].
  - exists "latin". split; [reflexivity | simpl; now left].
Qed.

Lemma spliceOpening_known (openingChar : jsstring) (stack : list PairEntry) :
  Forall (fun e => knownOrNull (pair_script e)) stack ->
  forall found stack',
    spliceOpening openingChar stack = Some (found, stack') ->
    knownOrNull found /\ Forall (fun e => knownOrNull (pair_script e)) stack'.
Proof.
  induction 1 as [|e above He Habove IH]; simpl; [discriminate|].
  intros found stack'.
  destruct (spliceOpening openingChar above) as [[f a]|].
  - intros H. injection H as <- <-. destruct (IH f a eq_refl) as [Hf Ha].
    split; [exact Hf | now constructor].
  - destruct (jsstring_eqb (pair_char e) openingChar); [|discriminate].
    intros H. injection H as <- <-. now split.
Qed.

Lemma obj_get_assign_present {V : Type} (k : string) (props : list (string * V)) :
  forall o,
    obj_get String.eqb k o <> None ->
    obj_get String.eqb k
      (fold_left (fun o kv => obj_set String.eqb (fst kv) (snd kv) o) props o) <> None.
Proof.
  induction props as [|[k' v'] props IH]; intros o Ho; simpl; [exact Ho|].
  apply IH. destruct (String.eqb_spec k k') as [<- | Hne].
  - rewrite (obj_get_set_same String.eqb String.eqb_eq). discriminate.
  - now rewrite (obj_get_set_other String.eqb String.eqb_eq).
Qed.

Lemma known_script_has_language (cfg : Config) (name : string) :
  In name (map fst scriptRanges) ->
  exists tag, obj_get String.eqb name (scriptToLang cfg) = Some tag.
Proof.
  intros Hin.
  assert (H : obj_get String.eqb name (scriptToLang cfg) <> None).
  { unfold scriptToLang, obj_literal. rewrite fold_left_app.
    apply obj_get_assign_present.
    simpl in Hin.
    repeat (destruct Hin as [<- | Hin]; [vm_compute; discriminate|]). destruct Hin. }
  destruct (obj_get String.eqb name (scriptToLang cfg)) as [tag|];
    [now exists tag | contradiction].
Qed.

Section KnownScripts.
Variable punctuation : Z -> bool.
Variable cfg : Config.
Hypothesis no_glyph_overrides : glyphOverrides cfg = [].

Lemma contextScript_known (st : LoopState) :
  knownOrNull (currentScript st) -> knownOrNull (lastNonWhitespaceScript st) ->
  knownOrNull (contextScript st).
Proof.
  intros Hcur Hlast. unfold contextScript.
  apply js_or_known; [now apply js_or_known | apply latin_known].
Qed.

Lemma pushSegment_known (st : LoopState) :
  scriptsKnown cfg st ->
  Forall (fun seg =>
            knownOrNull (script seg)
            /\ lang seg = obj_get String.eqb (propertyKey (script seg)) (scriptToLang cfg))
         (pushSegment cfg st).
Proof.
  intros (Hcur & _ & _ & Hsegs). unfold pushSegment.
  destruct (passesFilter cfg (currentSegment st)); [|exact Hsegs].
  apply Forall_app. split; [exact Hsegs|].
  constructor; [now split | constructor].
Qed.

Lemma resolvePunctuation_known (i : nat) (char : jsstring) (st : LoopState) :
  scriptsKnown cfg st ->
  knownOrNull (fst (resolvePunctuation cfg i char st))
  /\ scriptsKnown cfg (snd (resolvePunctuation cfg i char st)).
Proof.
  intros Hinv. pose proof Hinv as (Hcur & Hlast & Hstack & Hsegs).
  pose proof (contextScript_known st Hcur Hlast) as Hctx.
  unfold resolvePunctuation.
  destruct (obj_get jsstring_eqb char pairedPunctuation).
  { cbn [fst snd]. split; [exact Hctx|].
    repeat split; cbn [currentScript lastNonWhitespaceScript pairStack segments];
      try assumption.
    apply Forall_app. split; [exact Hstack|].
    constructor; [exact Hctx | constructor]. }
  destruct (obj_get jsstring_eqb char closingToOpening) as [j|].
  2:{ cbn [fst snd]. split; [now apply js_or_known | exact Hinv]. }
  assert (Hres :
            exists found stack,
              (match spliceOpening j (pairStack st) with
               | Some (s, stack') => (s, stack')
               | None => (None, pairStack st)
               end) = (found, stack)
              /\ knownOrNull found
              /\ Forall (fun e => knownOrNull (pair_script e)) stack).
  { destruct (spliceOpening j (pairStack st)) as [[f stack']|] eqn:E.
    - destruct (spliceOpening_known _ _ Hstack _ _ E) as [Hf Hst'].
      now exists f, stack'.
    - exists None, (pairStack st). repeat split; [now left | exact Hstack]. }
  destruct Hres as (found & stack & -> & Hfound & Hstack').
  assert (Hcs : knownOrNull (if truthy found then found else contextScript st))
    by now destruct (truthy found).
  destruct (truthy (currentScript st)
            && negb (script_eqb (currentScript st)
                                (if truthy found then found else contextScript st)));
    cbn [fst snd]; (split; [exact Hcs|]);
    repeat split; cbn [currentScript lastNonWhitespaceScript pairStack segments];
    try assumption.
  now apply pushSegment_known.
Qed.

Lemma step_known (i : nat) (c : Z) (rest : jsstring) (st : LoopState) :
  scriptsKnown cfg st -> scriptsKnown cfg (step punctuation cfg i c rest st).
Proof.
  intros Hinv. unfold step.
  destruct (preserveWhitespace cfg && isWhitespaceOrPunctuation punctuation c).
  - unfold stepPunctuation.
    destruct (resolvePunctuation_known i [c] st Hinv) as [Hcs H1].
    destruct (resolvePunctuation cfg i [c] st) as [charScript st1].
    cbn [fst snd] in Hcs, H1. destruct H1 as (Hcur1 & Hlast1 & Hstack1 & Hsegs1).
    assert (H2 : scriptsKnown cfg
                   (mkLoopState (segments st1) (currentSegment st1 ++ [c])
                      (match currentScript st1 with
                       | None => if truthy charScript then charScript else None
                       | Some _ => currentScript st1
                       end)
                      (lastNonWhitespaceScript st1) (pairStack st1))).
    { repeat split; cbn [currentScript lastNonWhitespaceScript pairStack segments];
        try assumption.
      destruct (currentScript st1); [exact Hcur1|].
      destruct (truthy charScript); [exact Hcs | now left]. }
    destruct (obj_get jsstring_eqb [c] closingToOpening); [|exact H2].
    match goal with |- context [if ?b then _ else _] => destruct b end; [|exact H2].
    destruct H2 as (Hcur2 & Hlast2 & Hstack2 & Hsegs2).
    repeat split; cbn [currentScript lastNonWhitespaceScript pairStack segments];
      try assumption; [now left|].
    apply pushSegment_known. repeat split; assumption.
  - destruct Hinv as (Hcur & Hlast & Hstack & Hsegs).
    pose proof (detectScript_known cfg [c] no_glyph_overrides) as Hc.
    unfold stepCharacter.
    destruct (currentScript st) as [s|] eqn:Ecur;
      [destruct (script_eqb (Some s) (Some (detectScript cfg [c])))|];
      repeat split; cbn [currentScript lastNonWhitespaceScript pairStack segments];
      try assumption.
    apply pushSegment_known. repeat split; try assumption. now rewrite Ecur.
Qed.

Lemma loop_known (txt : jsstring) :
  forall (i : nat) (st : LoopState),
    scriptsKnown cfg st -> scriptsKnown cfg (loop punctuation cfg i txt st).
Proof.
  induction txt as [|c rest IH]; intros i st Hinv; simpl; [exact Hinv|].
  apply IH. now apply step_known.
Qed.
End KnownScripts.

(** X18: without glyph overrides, the script of every returned segment is
    [null] or one of the names of the range table, its language is the entry
    of [scriptToLang] for its script, and a segment that has a script always
    has a language tag. *)
Theorem segments_have_language
        (punctuation : Z -> bool) (cfg : Config) (txt : jsstring) :
  glyphOverrides cfg = [] ->
  Forall (fun seg =>
            lang seg = obj_get String.eqb (propertyKey (script seg)) (scriptToLang cfg)
            /\ (script seg = None
                \/ exists s tag,
                     script seg = Some s
                     /\ In s (map fst scriptRanges)
                     /\ lang seg = Some tag))
         (segmentText punctuation cfg txt).
Proof.
  intros Hcfg.
  assert (Hinit : scriptsKnown cfg initialState).
  { repeat split; try (now left); constructor. }
  pose proof (loop_known punctuation cfg Hcfg txt 0%nat initialState Hinit) as Hfinal.
  eapply Forall_impl; [|apply (pushSegment_known cfg _ Hfinal)].
  intros seg [Hknown Hlang]. split; [exact Hlang|].
  destruct Hknown as [Hnull | (s & Hs & Hin)]; [now left|].
  right. destruct (known_script_has_language cfg s Hin) as (tag & Htag).
  exists s, tag. repeat split; try assumption.
  rewrite Hlang, Hs. exact Htag.
Qed.

Lemma segments_have_language_witness :
  Forall (fun seg =>
            lang seg = obj_get String.eqb (propertyKey (script seg))
                               (scriptToLang config_traditional)
            /\ (script seg = None
                \/ exists s tag,
                     script seg = Some s
                     /\ In s (map fst scriptRanges)
                     /\ lang seg = Some tag))
         (segmentText unicodePunctuation config_traditional text_three_scripts).
Proof.
  apply (segments_have_language unicodePunctuation config_traditional text_three_scripts).
  reflexivity.
Defined.

(** ** Where segments start *)

Section SegmentStarts.
Variable punctuation : Z -> bool.
Variable cfg : Config.

Lemma startsClassified_snoc (s : jsstring) (c : Z) :
  startsClassified punctuation cfg s -> startsClassified punctuation cfg (s ++ [c]).
Proof.
  intros (c0 & r & -> & Hc0). exists c0, (r ++ [c]). now split.
Qed.

Lemma current_snoc (consumed : jsstring) (st : LoopState) (c : Z) :
  startsClassified punctuation cfg (currentSegment st) \/ currentSegment st = consumed ->
  startsClassified punctuation cfg (currentSegment st ++ [c])
  \/ currentSegment st ++ [c] = consumed ++ [c].
Proof.
  intros [H | ->]; [left; now apply startsClassified_snoc | now right].
Qed.

Lemma segments_grow (consumed : jsstring) (c : Z) (segs : list Segment) :
  Forall (fun seg =>
            startsClassified punctuation cfg (text seg)
            \/ exists rest, consumed = text seg ++ rest) segs ->
  Forall (fun seg =>
            startsClassified punctuation cfg (text seg)
            \/ exists rest, consumed ++ [c] = text seg ++ rest) segs.
Proof.
  apply Forall_impl. intros seg [H | (rest & ->)]; [now left|].
  right. exists (rest ++ [c]). now rewrite app_assoc.
Qed.

Lemma pushSegment_starts (consumed : jsstring) (c : Z) (st : LoopState) :
  startInvariant punctuation cfg consumed st ->
  Forall (fun seg =>
            startsClassified punctuation cfg (text seg)
            \/ exists rest, consumed ++ [c] = text seg ++ rest)
         (pushSegment cfg st).
Proof.
  intros [Hsegs Hcur]. unfold pushSegment.
  destruct (passesFilter cfg (currentSegment st)); [|now apply segments_grow].
  apply Forall_app. split; [now apply segments_grow|].
  constructor; [|constructor]. cbn [text].
  destruct Hcur as [H | ->]; [now left | right; now exists [c]].
Qed.

Lemma step_starts (i : nat) (c : Z) (rest consumed : jsstring) (st : LoopState) :
  obj_get jsstring_eqb [c] closingToOpening = None ->
  startInvariant punctuation cfg consumed st ->
  startInvariant punctuation cfg (consumed ++ [c]) (step punctuation cfg i c rest st).
Proof.
  intros Hclose Hinv. pose proof Hinv as [Hsegs Hcur]. unfold step.
  destruct (preserveWhitespace cfg && isWhitespaceOrPunctuation punctuation c) eqn:Hclass.
  - unfold stepPunctuation, resolvePunctuation. rewrite Hclose.
    destruct (obj_get jsstring_eqb [c] pairedPunctuation);
      (split; cbn [segments currentSegment];
       [now apply segments_grow | now apply current_snoc]).
  - assert (Hc : classified punctuation cfg c = true)
      by (unfold classified; now rewrite Hclass).
    unfold stepCharacter.
    destruct (currentScript st);
      [destruct (script_eqb _ _)|];
      split; cbn [segments currentSegment];
      try (now apply segments_grow); try (now apply current_snoc).
    + now apply pushSegment_starts.
    + left. now exists c, [].
Qed.

Lemma loop_starts (txt : jsstring) :
  forall (i : nat) (consumed : jsstring) (st : LoopState),
    Forall (fun c => obj_get jsstring_eqb [c] closingToOpening = None) txt ->
    startInvariant punctuation cfg consumed st ->
    startInvariant punctuation cfg (consumed ++ txt) (loop punctuation cfg i txt st).
Proof.
  induction txt as [|c rest IH]; intros i consumed st Hall Hinv; simpl.
  - now rewrite app_nil_r.
  - replace (consumed ++ c :: rest) with ((consumed ++ [c]) ++ rest)
      by now rewrite <- app_assoc.
    apply IH; [exact (Forall_inv_tail Hall)|].
    apply step_starts; [exact (Forall_inv Hall) | exact Hinv].
Qed.
End SegmentStarts.

(** X19: in a text without closing glyph of the pairing table, whitespace
    and punctuation never open a segment after the first: every returned
    segment starts with a code unit classified by [detectScript], or starts
    where the text starts. *)
Theorem segments_start_classified
        (punctuation : Z -> bool) (cfg : Config) (txt : jsstring) :
  Forall (fun c => obj_get jsstring_eqb [c] closingToOpening = None) txt ->
  Forall (fun seg =>
            startsClassified punctuation cfg (text seg)
            \/ exists rest, txt = text seg ++ rest)
         (segmentText punctuation cfg txt).
Proof.
  intros Hall.
  assert (Hinit : startInvariant punctuation cfg [] initialState)
    by (split; [constructor | now right]).
  pose proof (loop_starts punctuation cfg txt 0%nat [] initialState Hall Hinit)
    as [Hsegs Hcur].
  simpl app in Hsegs, Hcur. unfold segmentText, pushSegment.
  destruct (passesFilter cfg _); [|exact Hsegs].
  apply Forall_app. split; [exact Hsegs|].
  constructor; [|constructor]. cbn [text].
  destruct Hcur as [H | ->]; [now left | right; exists []; now rewrite app_nil_r].
Qed.

Lemma segments_start_classified_witness :
  Forall (fun seg =>
            startsClassified unicodePunctuation DEFAULT_CONFIG (text seg)
            \/ exists rest, text_hello = text seg ++ rest)
         (segmentText unicodePunctuation DEFAULT_CONFIG text_hello).
Proof.
  apply (segments_start_classified unicodePunctuation DEFAULT_CONFIG text_hello).
  repeat constructor.
Defined.

(** ** Punctuation inside text of one script *)


Section OneScript.
Variable punctuation : Z -> bool.
Variable cfg : Config.
Variable s : string.
Hypothesis s_truthy : truthy (Some s) = true.



End OneScript.



(** ** An opening glyph at the start of a text *)







(** ** wrap *)

(** X22: [wrap] hands a string to [querySelectorAll] only when it starts
    with neither '#' nor '.' and holds a space or '>'.  For every other
    string (one that starts with '#' or '.', even a compound selector such as
    "#main p", or one whose only combinators are '+' or '~') the elements
    are found by id, class and tag name alone, whatever [querySelectorAll]
    would answer, and no exception is raised; a string that starts with '#'
    designates at most one element. *)
Theorem wrap_without_querySelectorAll
        {Element : Type} (document : Document Element) (sel : jsstring) :
  startsWith sel 0x23 = true
  \/ startsWith sel 0x2E = true
  \/ (includes sel 0x20 = false /\ includes sel 0x3E = false) ->
  (forall query,
      wrapElements document (SelectorString sel)
      = wrapElements
          {| getElementById := getElementById document;
             getElementsByClassName := getElementsByClassName document;
             getElementsByTagName := getElementsByTagName document;
             querySelectorAll := query |}
          (SelectorString sel))
  /\ (exists count, wrap document (SelectorString sel) = Some count)
  /\ (startsWith sel 0x23 = true ->
      exists count,
        wrap document (SelectorString sel) = Some count /\ (count <= 1)%nat).
Proof.
  intros Hsel. unfold wrap, wrapElements. cbn [getElementById getElementsByClassName
                                                getElementsByTagName querySelectorAll].
  destruct (startsWith sel 0x23) eqn:Hid.
  { destruct (getElementById document (slice1 sel)); cbn [option_map List.length];
      repeat split; eauto. }
  destruct (startsWith sel 0x2E) eqn:Hclass.
  { cbn [option_map]. repeat split; eauto. discriminate. }
  destruct Hsel as [H | [H | [Hspace Hgt]]]; try discriminate.
  rewrite Hspace, Hgt. cbn [orb].
  split; [reflexivity|]. split; [|discriminate].
  destruct (getElementsByTagName document sel);
    [destruct (getElementById document sel)|]; cbn [option_map]; eauto.
Qed.

Lemma wrap_without_querySelectorAll_witness :
  wrapElements sample_document (SelectorString (lit "p+p"))
  = wrapElements
      {| getElementById := getElementById sample_document;
         getElementsByClassName := getElementsByClassName sample_document;
         getElementsByTagName := getElementsByTagName sample_document;
         querySelectorAll := fun _ => Some [1%nat; 2%nat] |}
      (SelectorString (lit "p+p"))
  /\ exists count,
       wrap sample_document (SelectorString (lit "#intro p")) = Some count
       /\ (count <= 1)%nat.
Proof.
  split.
  - apply (proj1 (wrap_without_querySelectorAll sample_document (lit "p+p")
                    (or_intror (or_intror (conj eq_refl eq_refl))))).
  - apply (proj2 (proj2 (wrap_without_querySelectorAll sample_document (lit "#intro p")
                           (or_introl eq_refl)))).
    reflexivity.
Defined.
